(** * logxi v1: the terminal ("happy dev") formatter

    A shallow embedding of [v1/happyDevFormatter.go]: theme parsing
    ([parseKVList], [parseTheme]), the column-tracking writers
    ([writeString], [writeKey], [offset], [set], [writeError]), the
    call-site resolver ([getLevelContext]) and [Format] itself.

    Go strings are byte strings, so they are Rocq [string]s and [len] is
    [String.length].  [hd.col] and [maxCol] are Go [int]s; they are modelled
    in [Z] without wrap-around, since [hd.col] is reset for every record and
    only ever grows by the length of strings held in memory. *)

From Stdlib Require Import ZArith String Ascii List Lia Bool DecimalString.
From stdpp Require Import base option gmap strings list.

Open Scope string_scope.
Open Scope Z_scope.

(* stdpp keeps [simpl] from unfolding string concatenation; the proofs
   below compute with it. *)
Arguments String.append !_ _ / : simpl nomatch.

(** ** Strings *)

Definition LF : string := String "010"%char "".
Definition DQ : string := String "034"%char "".

Definition len (s : string) : Z := Z.of_nat (String.length s).

Definition isEmpty (s : string) : bool := String.eqb s "".

(** The last byte of a string, if any ([s[len(s)-1:]]). *)
Fixpoint lastByte (s : string) : option ascii :=
  match s with
  | "" => None
  | String c "" => Some c
  | String _ s' => lastByte s'
  end.

Definition endsWithLF (s : string) : bool :=
  match lastByte s with
  | Some c => Ascii.eqb c "010"
  | None => false
  end.

Fixpoint inCutset (cutset : string) (c : ascii) : bool :=
  match cutset with
  | "" => false
  | String d cutset' => Ascii.eqb c d || inCutset cutset' c
  end.

Module strings.

(** [strings.TrimLeft], for a cutset of ASCII bytes. *)
Fixpoint TrimLeft (s cutset : string) : string :=
  match s with
  | "" => ""
  | String c s' => if inCutset cutset c then TrimLeft s' cutset else s
  end.

(** [strings.TrimRight], for a cutset of ASCII bytes. *)
Fixpoint TrimRight (s cutset : string) : string :=
  match s with
  | "" => ""
  | String c s' =>
      let r := TrimRight s' cutset in
      if isEmpty r && inCutset cutset c then "" else String c r
  end.

(** [strings.Trim]: leading and trailing bytes of the cutset removed. *)
Definition Trim (s cutset : string) : string :=
  TrimRight (TrimLeft s cutset) cutset.

Fixpoint hasPrefix (s p : string) : bool :=
  match p, s with
  | "", _ => true
  | String a p', String b s' => Ascii.eqb a b && hasPrefix s' p'
  | String _ _, "" => false
  end.

(** The scan of [strings.Split] for a non-empty separator: [cur] holds the
    bytes of the piece being read, [skip] the bytes of a matched separator
    that are still to be passed over. *)
Fixpoint splitScan (s sep cur : string) (skip : nat) : list string :=
  match s with
  | "" => [cur]
  | String c s' =>
      match skip with
      | S k => splitScan s' sep cur k
      | O =>
          if hasPrefix s sep
          then cur :: splitScan s' sep "" (String.length sep - 1)
          else splitScan s' sep (cur ++ String c "") O
      end
  end.

(** [strings.Split(s, sep)] for a non-empty [sep] (the only use in this
    file is with [","] and ["="]); with an empty [sep] Go explodes [s]
    into its characters, which is written here for single bytes. *)
Definition Split (s sep : string) : list string :=
  if isEmpty sep
  then map (fun c => String c "") (list_ascii_of_string s)
  else splitScan s sep "" O.

End strings.

(** ** Data model *)

(** [colorScheme]: the eight colour slots of a theme. *)
Record colorScheme : Type := mkColorScheme {
  Key : string;
  Value : string;
  Misc : string;
  Source : string;
  Debug : string;
  Info : string;
  Warn : string;
  Error : string
}.

(** Assignment to one field of a [colorScheme]. *)
Definition setKey (v : string) (cs : colorScheme) : colorScheme :=
  mkColorScheme v (Value cs) (Misc cs) (Source cs)
    (Debug cs) (Info cs) (Warn cs) (Error cs).
Definition setValue (v : string) (cs : colorScheme) : colorScheme :=
  mkColorScheme (Key cs) v (Misc cs) (Source cs)
    (Debug cs) (Info cs) (Warn cs) (Error cs).
Definition setMisc (v : string) (cs : colorScheme) : colorScheme :=
  mkColorScheme (Key cs) (Value cs) v (Source cs)
    (Debug cs) (Info cs) (Warn cs) (Error cs).
Definition setSource (v : string) (cs : colorScheme) : colorScheme :=
  mkColorScheme (Key cs) (Value cs) (Misc cs) v
    (Debug cs) (Info cs) (Warn cs) (Error cs).
Definition setDebug (v : string) (cs : colorScheme) : colorScheme :=
  mkColorScheme (Key cs) (Value cs) (Misc cs) (Source cs)
    v (Info cs) (Warn cs) (Error cs).
Definition setInfo (v : string) (cs : colorScheme) : colorScheme :=
  mkColorScheme (Key cs) (Value cs) (Misc cs) (Source cs)
    (Debug cs) v (Warn cs) (Error cs).
Definition setWarn (v : string) (cs : colorScheme) : colorScheme :=
  mkColorScheme (Key cs) (Value cs) (Misc cs) (Source cs)
    (Debug cs) (Info cs) v (Error cs).
Definition setError (v : string) (cs : colorScheme) : colorScheme :=
  mkColorScheme (Key cs) (Value cs) (Misc cs) (Source cs)
    (Debug cs) (Info cs) (Warn cs) v.

(** The dynamic values ([interface{}]) that reach the formatter, split by
    the type tests the code performs on them. *)
Inductive goval : Type :=
| VNil                                 (* the nil interface, e.g. a missing map entry *)
| VString (s : string)                 (* a Go string *)
| VError (msg : string)                (* implements [error], is not a [*errors.Error] *)
| VErrorsError (msg stack : string)    (* a go-errors [*errors.Error]: message, captured stack *)
| VOther (repr : string).              (* anything else; [repr] is how [%v] prints it *)

(** [fmt.Sprintf("%v", v)]. *)
Definition Sprint (v : goval) : string :=
  match v with
  | VNil => "<nil>"
  | VString s => s
  | VError msg => msg
  | VErrorsError msg _ => msg
  | VOther repr => repr
  end.

(** A frame of the call stack ([stack.Call]), identified by its program
    counter. *)
Definition Call : Type := Z.

(** Everything [happyDevFormatter.go] reads but does not define: the
    package variables and constants declared in other files of the
    package, the helpers of the package that live in other files, and the
    functions of the libraries it imports. *)
Record env : Type := mkEnv {
  (* package state *)
  theme : colorScheme;
  indent : string;
  maxCol : Z;
  isPretty : bool;
  Separator : string;
  contextLines : Z;
  (* keys of the canonical entry and level constants *)
  timeKey : string;
  levelKey : string;
  nameKey : string;
  messageKey : string;
  LevelDebug : Z;
  LevelInfo : Z;
  LevelWarn : Z;
  (* the reserved-key registry consulted by isReservedKey *)
  reservedKeys : list string;
  (* badKeyAtIndex(i) *)
  badKeyAtIndex : nat -> string;
  (* hd.jsonFormatter.LogEntry(level, msg, args) *)
  LogEntry : Z -> string -> list goval -> gmap string goval;
  (* newCallstackInfo(call, contextLines).String(color, sourceColor) *)
  callstackString : Call -> Z -> string -> string -> string;
  (* stack.Trace().TrimRuntime() as seen from getLevelContext *)
  stackTrace : list Call;
  (* string(errors.Wrap(err, 4).Stack()) for an err that is not yet wrapped *)
  wrapStack : string;
  (* ansi.Reset and ansi.ColorCode *)
  ansiReset : string;
  ansiColorCode : string -> string;
  (* json.Marshal on a string: the encoding, or an error text *)
  jsonMarshal : string -> string + string
}.

Definition assignmentChar : string := ": ".

(** ** The buffer and the column cursor *)

(** The buffer is kept as the sequence of writes made to it, each tagged
    by the way the code made it: directly on the buffer
    ([buf.WriteString], [buf.WriteRune]) or through [hd.writeString],
    which also advances [hd.col].  [bytes] is the buffer's content. *)
Inductive chunk : Type :=
| Raw (s : string)
| Tracked (s : string).

Definition chunkText (c : chunk) : string :=
  match c with Raw s => s | Tracked s => s end.

Fixpoint bytes (cs : list chunk) : string :=
  match cs with
  | [] => ""
  | c :: cs' => chunkText c ++ bytes cs'
  end.

Record state : Type := mkState {
  col : Z;
  buf : list chunk
}.

Definition action : Type := state -> state.

Definition seq (a b : action) : action := fun st => b (a st).
Notation "a >> b" := (seq a b) (at level 61, left associativity).

Definition skip : action := fun st => st.

Definition when_ (b : bool) (a : action) : action := if b then a else skip.

(** [buf.WriteString(s)] / [buf.WriteRune(r)]. *)
Definition bufWrite (s : string) : action :=
  fun st => {| col := col st; buf := buf st ++ [Raw s] |}.

(** [hd.col = n]. *)
Definition setCol (n : Z) : action :=
  fun st => {| col := n; buf := buf st |}.

(** [writeString]: write and advance the cursor by the byte length. *)
Definition writeString (s : string) : action :=
  fun st => {| col := col st + len s; buf := buf st ++ [Tracked s] |}.

Section Formatter.

Variable E : env.

Definition writeKey (key : string) : action :=
  writeString (Separator E) >>
  when_ (negb (isEmpty key))
    (bufWrite (Key (theme E)) >>
     writeString key >>
     writeString assignmentChar >>
     bufWrite (ansiReset E)).

(** The test that opens [offset], on the trimmed value. *)
Definition wraps (st : state) (key val : string) : bool :=
  (isPretty E && negb (isEmpty key))
  || (col st + len key + 1 + len val >=? maxCol E).

Definition breakLine : action :=
  bufWrite LF >> setCol 0 >> writeString (indent E).

Definition offset (color key value : string) : action :=
  fun st =>
    let val := strings.Trim value (LF ++ " ") in
    (when_ (wraps st key val) breakLine >>
     writeKey key >>
     when_ (negb (isEmpty color)) (bufWrite color) >>
     writeString val >>
     when_ (negb (isEmpty color)) (bufWrite (ansiReset E))) st.


(** ** Error values *)

(** The type test [value.(error)]: both plain errors and [*errors.Error]
    implement [error]. *)
Definition asError (value : goval) : option goval :=
  match value with
  | VError _ | VErrorsError _ _ => Some value
  | _ => None
  end.

(** The type test of [value] against [*errors.Error]. *)
Definition asErrorsError (value : goval) : option (string * string) :=
  match value with
  | VErrorsError msg stack => Some (msg, stack)
  | _ => None
  end.

(** [errors.Wrap(err, 4)], as the pair of [Error()] and [string(Stack())]:
    an [*errors.Error] is returned as it is, any other error is wrapped
    with the stack captured at the call. *)
Definition errorsWrap (err : goval) : string * string :=
  match err with
  | VErrorsError msg stack => (msg, stack)
  | other => (Sprint other, wrapStack E)
  end.

Definition writeError (key : string) (err : string * string) : action :=
  let msg := fst err in
  let stack := snd err in
  offset (Error (theme E)) key (msg ++ LF ++ stack).

Definition set (key : string) (value : goval) (color : string) : action :=
  match asError value with
  | Some err => writeError key (errorsWrap err)
  | None =>
      match asErrorsError value with
      | Some err => writeError key err
      | None => offset color key (Sprint value)
      end
  end.

(** ** Call-site context *)

(** The loop of the [LevelWarn] case, from frame [i] on. *)
Fixpoint warnLoop (i : nat) (trace : list Call) : string :=
  match trace with
  | [] => ""
  | call :: trace' =>
      if (i <? 4)%nat then warnLoop (S i) trace'
      else callstackString E call (-1) (Warn (theme E)) (Source (theme E))
  end.

(** The loop of the default case, from frame [i] on, [errbuf] being what
    has been collected so far. *)
Fixpoint errorLoop (i : nat) (trace : list Call) (errbuf : string) : string :=
  match trace with
  | [] => errbuf
  | call :: trace' =>
      if (i <? 3)%nat then errorLoop (S i) trace' errbuf
      else
        let ctx :=
          callstackString E call (contextLines E)
            (Error (theme E)) (Source (theme E)) in
        if isEmpty ctx then errorLoop (S i) trace' errbuf
        else errorLoop (S i) trace' (errbuf ++ ctx ++ LF)
  end.

Definition getLevelContext (level : Z) : string * string :=
  if level =? LevelDebug E then ("", Debug (theme E))
  else if level =? LevelInfo E then ("", Info (theme E))
  else if level =? LevelWarn E then
    (warnLoop 0 (stackTrace E), Warn (theme E))
  else (errorLoop 0 (stackTrace E) "", Error (theme E)).

(** ** Key validation *)

(** Modelled from the spec: [isReservedKey] is defined in another file of
    the package.  It fails on a key that is not a string and otherwise
    tells whether the key is in the reserved-key registry.  [None] is the
    error result. *)
Definition isReservedKey (k : goval) : option bool :=
  match k with
  | VString key => Some (existsb (String.eqb key) (reservedKeys E))
  | _ => None
  end.

(** What [InternalLog.Error] is told about a key that is not a string. *)
Inductive diag : Type :=
| KeyNotString (index : nat) (shown : string).

(** The ways a call of [Format] ends without returning. *)
Inductive failure : Type :=
| FatalReservedKey (key : string)   (* InternalLog.Fatal: the process ends *)
| PanicKeyInvalid (err : string)    (* panic("Key is invalid. ...") *)
| PanicKeyComplex (key : string)    (* panic("Key is complex. ...") *)
| PanicNotAString (what : string)   (* a failed type assertion x.(string) *)
| PanicShouldNeverGetHere.          (* panic("key is invalid. Should never get here. ...") *)

Inductive verdict : Type :=
| Pass
| Diagnose (d : diag)
| Stop (f : failure).

(** The body of the first loop of [Format], for [args[i] = k]. *)
Definition checkKey (i : nat) (k : goval) : verdict :=
  match isReservedKey k with
  | None => Diagnose (KeyNotString i (Sprint k))
  | Some true =>
      match k with
      | VString key => Stop (FatalReservedKey key)
      | _ => Stop (PanicNotAString "key")
      end
  | Some false =>
      match k with
      | VString key =>
          match jsonMarshal E key with
          | inr err => Stop (PanicKeyInvalid err)
          | inl b =>
              if String.eqb b (DQ ++ key ++ DQ) then Pass
              else Stop (PanicKeyComplex key)
          end
      | _ => Stop (PanicNotAString "key")
      end
  end.

(** The positions [i, i+2, ...] visited by [for i := ...; i < len(args);
    i += 2], each with [args[i]]. *)
Fixpoint keysFrom (i : nat) (args : list goval) : list (nat * goval) :=
  match args with
  | [] => []
  | k :: rest =>
      (i, k) :: match rest with
                | [] => []
                | _ :: rest' => keysFrom (S (S i)) rest'
                end
  end.

(** The first loop of [Format]: the diagnostics issued and how it ended. *)
Fixpoint validate (ks : list (nat * goval)) : list diag * option failure :=
  match ks with
  | [] => ([], None)
  | (i, k) :: ks' =>
      match checkKey i k with
      | Pass => validate ks'
      | Diagnose d => let (ds, r) := validate ks' in (d :: ds, r)
      | Stop f => ([], Some f)
      end
  end.

(** The second loop of [Format]: the keys in call order. *)
Fixpoint orderLoop (lenArgs : nat) (ks : list (nat * goval)) : list string :=
  match ks with
  | [] => []
  | (i, k) :: ks' =>
      if (lenArgs <=? i + 1)%nat then orderLoop lenArgs ks'
      else
        match k with
        | VString key => key :: orderLoop lenArgs ks'
        | _ => badKeyAtIndex E i :: orderLoop lenArgs ks'
        end
  end.

Definition orderOf (args : list goval) : list string :=
  orderLoop (List.length args) (keysFrom 0 args).

(** [entry[key]]: a missing key reads as nil. *)
Definition entryAt (entry : gmap string goval) (key : string) : goval :=
  default VNil (entry !! key).

(** The third loop of [Format]: the user fields, in order. *)
Fixpoint writeFields (entry : gmap string goval) (order : list string)
    (st : state) : state + failure :=
  match order with
  | [] => inl st
  | key :: order' =>
      match isReservedKey (VString key) with
      | None => inr PanicShouldNeverGetHere
      | Some true => writeFields entry order' st
      | Some false =>
          writeFields entry order'
            (set key (entryAt entry key) (Value (theme E)) st)
      end
  end.

(** The end of [Format]: the call-site context, if any, and the line
    break. *)
Definition writeContext (context color : string) : action :=
  if negb (isEmpty context) then
    bufWrite LF >> bufWrite color >> bufWrite context >>
    bufWrite (ansiReset E) >>
    when_ (negb (endsWithLF context)) (bufWrite LF)
  else bufWrite LF.

Inductive outcome : Type :=
| Rendered (out : list chunk)
| Failed (f : failure).

(** [Format] from the call of [LogEntry] to the end of the third loop:
    the state reached, with the context and colour that
    [getLevelContext] gave.  [Format] only appends to [buf]; [buf] here is
    what it appends. *)
Definition writeRecord (level : Z) (msg : string) (args : list goval)
    : (state * (string * string)) + failure :=
  let entry := LogEntry E level msg args in
  match entryAt entry (timeKey E) with
  | VString t =>
      let st :=
        (setCol 0 >>
         bufWrite (Misc (theme E)) >> writeString t >>
         bufWrite (ansiReset E)) {| col := 0; buf := [] |} in
      let (context, color) := getLevelContext level in
      match entryAt entry (levelKey E) with
      | VString l =>
          let st :=
            (set "" (VString l) color >>
             set "" (entryAt entry (nameKey E)) (Misc (theme E)) >>
             set "" (entryAt entry (messageKey E)) color) st in
          match writeFields entry (orderOf args) st with
          | inl st => inl (st, (context, color))
          | inr f => inr f
          end
      | _ => inr (PanicNotAString (levelKey E))
      end
  | _ => inr (PanicNotAString (timeKey E))
  end.

(** [Format] after the validation loop. *)
Definition render (level : Z) (msg : string) (args : list goval) : outcome :=
  match writeRecord level msg args with
  | inl (st, (context, color)) =>
      Rendered (buf (writeContext context color st))
  | inr f => Failed f
  end.

Definition Format (level : Z) (msg : string) (args : list goval)
    : list diag * outcome :=
  let (ds, r) := validate (keysFrom 0 args) in
  (ds, match r with
       | Some f => Failed f
       | None => render level msg args
       end).

(** ** Themes *)

Definition parseKVList (s separator : string) : gmap string string :=
  fold_left
    (fun (m : gmap string string) (pair : string) =>
       if isEmpty pair then m
       else
         match strings.Split pair "=" with
         | [k] => <[k := ""]> m
         | [k; v] => <[k := v]> m
         | _ => m
         end)
    (strings.Split s separator) ∅.

(** The closure [color] of [parseTheme], with the [wildcard] variable it
    captures as it stands at the call. *)
Definition themeColor (m : gmap string string) (wildcard key : string)
    : string :=
  let style := default "" (m !! key) in
  let c := ansiColorCode E style in
  if isEmpty c then wildcard else c.

Definition parseTheme (themeSpec : string) : colorScheme :=
  let m := parseKVList themeSpec "," in
  let cs := mkColorScheme "" "" "" "" "" "" "" "" in
  let wildcard := themeColor m "" "*" in
  let cs :=
    if negb (String.eqb wildcard (ansiReset E))
    then mkColorScheme wildcard wildcard wildcard wildcard
                       wildcard wildcard wildcard wildcard
    else cs in
  let color := themeColor m wildcard in
  let cs := setKey (color "key") cs in
  let cs := setValue (color "value") cs in
  let cs := setMisc (color "misc") cs in
  let cs := setSource (color "source") cs in
  let cs := setDebug (color "DBG") cs in
  let cs := setWarn (color "WRN") cs in
  let cs := setInfo (color "INF") cs in
  setError (color "ERR") cs.

End Formatter.

(** ** A sample environment

    Concrete values for what [env] leaves open, used to run the formatter
    on examples. *)

Module Sample.

Definition ESC : string := String "027"%char "".

(** [ansi.Reset] of mgutz/ansi. *)
Definition Reset : string := ESC ++ "[0m".

(** A resolver in the manner of [ansi.ColorCode]: an empty or unknown style
    resolves to nothing. *)
Definition ColorCode (style : string) : string :=
  if String.eqb style "red" then ESC ++ "[0;31m"
  else if String.eqb style "blue" then ESC ++ "[0;34m"
  else if String.eqb style "yellow" then ESC ++ "[0;33m"
  else if String.eqb style "reset" then Reset
  else "".

Definition hexDigit (n : N) : ascii :=
  ascii_of_N (if (n <? 10)%N then 48 + n else 87 + n).

(** The string encoder of encoding/json on one byte below 0x80, with HTML
    escaping on as [json.Marshal] has it. *)
Definition quoteByte (c : ascii) : string :=
  let n := N_of_ascii c in
  if Ascii.eqb c "034" then "\" ++ DQ
  else if Ascii.eqb c "\" then "\\"
  else if Ascii.eqb c "010" then "\n"
  else if Ascii.eqb c "013" then "\r"
  else if Ascii.eqb c "009" then "\t"
  else if (n <? 32)%N || Ascii.eqb c "<" || Ascii.eqb c ">" || Ascii.eqb c "&"
  then "\u00" ++ String (hexDigit (n / 16)) (String (hexDigit (n mod 16)) "")
  else String c "".

Fixpoint quoteBytes (s : string) : string :=
  match s with
  | "" => ""
  | String c s' => quoteByte c ++ quoteBytes s'
  end.

(** [json.Marshal] on a string of ASCII bytes; it never fails on a
    string. *)
Definition Marshal (s : string) : string + string :=
  inl (DQ ++ quoteBytes s ++ DQ).

Definition decimal (n : nat) : string :=
  DecimalString.NilEmpty.string_of_uint (Nat.to_uint n).

Definition badKey (i : nat) : string :=
  "BAD_KEY_AT_INDEX_" ++ decimal i.

Definition warnImbalancedKey : string := "IMBALANCED_PAIRS=>".

Definition levelName (level : Z) : string :=
  if level =? 7 then "DBG"
  else if level =? 6 then "INF"
  else if level =? 4 then "WRN"
  else "ERR".

(** The entries the canonical encoder makes of the pairs of [args]. *)
Fixpoint pairsFrom (i : nat) (args : list goval) (m : gmap string goval)
    : gmap string goval :=
  match args with
  | k :: v :: rest =>
      let key :=
        match k with
        | VString s => s
        | _ => badKey i
        end in
      pairsFrom (S (S i)) rest (<[key := v]> m)
  | _ => m
  end.

(** Modelled from the spec: [JSONFormatter.LogEntry] is defined in another
    file of the package.  The canonical field mapping holds the timestamp,
    the level, the logger name and the message under their keys, and
    every user field under its key; an argument list of odd length is
    marked by one more field, under the imbalance key. *)
Definition logEntry (level : Z) (msg : string) (args : list goval)
    : gmap string goval :=
  let m : gmap string goval :=
    <["m" := VString msg]>
      (<["n" := VString "app"]>
         (<["l" := VString (levelName level)]>
            (<["t" := VString "12:00:00.000000"]> ∅))) in
  let m := pairsFrom 0 args m in
  if Nat.even (List.length args) then m
  else <[warnImbalancedKey := VOther "[...]"]> m.

(** A frame prints as a location; frames with a negative counter have no
    source. *)
Definition frameString (call : Call) (lines : Z) (color source : string)
    : string :=
  if call <? 0 then ""
  else source ++ "main.go:" ++ decimal (Z.to_nat call).

Definition sampleTheme : colorScheme :=
  {| Key := ESC ++ "[0;36m"; Value := ""; Misc := ESC ++ "[0;34m";
     Source := ESC ++ "[0;35m"; Debug := ""; Info := ESC ++ "[0;32m";
     Warn := ESC ++ "[0;33m"; Error := ESC ++ "[0;31m" |}.

Definition sampleEnv : env :=
  {| theme := sampleTheme;
     indent := "  ";
     maxCol := 80;
     isPretty := false;
     Separator := " ";
     contextLines := 2;
     timeKey := "t";
     levelKey := "l";
     nameKey := "n";
     messageKey := "m";
     LevelDebug := 7;
     LevelInfo := 6;
     LevelWarn := 4;
     reservedKeys := ["@"; "l"; "m"; "n"; "t"];
     badKeyAtIndex := badKey;
     LogEntry := logEntry;
     callstackString := frameString;
     stackTrace := [10; 11; 12; 13; 14; -1; 16];
     wrapStack := "main.go:20" ++ LF ++ "main.go:30" ++ LF;
     ansiReset := Reset;
     ansiColorCode := ColorCode;
     jsonMarshal := Marshal |}.

End Sample.

(** * Properties *)

(** ** Strings and buffers *)

Lemma append_empty_r (s : string) : s ++ "" = s.
Proof. induction s as [|c s IH]; simpl; [reflexivity | now rewrite IH]. Qed.

Lemma append_empty_l (s : string) : "" ++ s = s.
Proof. reflexivity. Qed.

Lemma append_assoc (a b c : string) : (a ++ b) ++ c = a ++ (b ++ c).
Proof. induction a as [|x a IH]; simpl; [reflexivity | now rewrite IH]. Qed.

Lemma isEmpty_true (s : string) : isEmpty s = true <-> s = "".
Proof. unfold isEmpty. apply String.eqb_eq. Qed.

Lemma isEmpty_false (s : string) : isEmpty s = false <-> s <> "".
Proof. unfold isEmpty. apply String.eqb_neq. Qed.

Lemma bytes_app (xs ys : list chunk) : bytes (xs ++ ys) = bytes xs ++ bytes ys.
Proof.
  induction xs as [|x xs IH]; simpl; [reflexivity|].
  now rewrite IH, append_assoc.
Qed.

Lemma bytes_snoc (xs : list chunk) (c : chunk) :
  bytes (xs ++ [c]) = bytes xs ++ chunkText c.
Proof. rewrite bytes_app. simpl. now rewrite append_empty_r. Qed.

Lemma lastByte_app_nonempty (a b : string) :
  b <> "" -> lastByte (a ++ b) = lastByte b.
Proof.
  intros Hb. induction a as [|x a IH]; simpl; [reflexivity|].
  rewrite IH. destruct (a ++ b) eqn:Hab; [|reflexivity].
  destruct a; simpl in Hab; [contradiction | discriminate].
Qed.

Lemma lastByte_snoc (a : string) (c : ascii) :
  lastByte (a ++ String c "") = Some c.
Proof. rewrite lastByte_app_nonempty; [reflexivity | discriminate]. Qed.

(** ** Trimming *)

Fixpoint allIn (cutset s : string) : bool :=
  match s with
  | "" => true
  | String c s' => inCutset cutset c && allIn cutset s'
  end.

Definition firstByte (s : string) : option ascii :=
  match s with
  | "" => None
  | String c _ => Some c
  end.

Definition outside (cutset : string) (o : option ascii) : Prop :=
  match o with
  | Some c => inCutset cutset c = false
  | None => True
  end.

Lemma TrimLeft_split (s cut : string) :
  exists l, s = l ++ strings.TrimLeft s cut /\ allIn cut l = true.
Proof.
  induction s as [|c s [l [Hs Hl]]]; simpl.
  - exists "". now split.
  - destruct (inCutset cut c) eqn:Hc.
    + exists (String c l). simpl. rewrite Hc, Hl. split; [now f_equal | reflexivity].
    + exists "". now split.
Qed.

Lemma TrimLeft_first (s cut : string) :
  outside cut (firstByte (strings.TrimLeft s cut)).
Proof.
  induction s as [|c s IH]; simpl; [exact I|].
  destruct (inCutset cut c) eqn:Hc; [exact IH | exact Hc].
Qed.

Lemma TrimRight_split (s cut : string) :
  exists r, s = strings.TrimRight s cut ++ r /\ allIn cut r = true.
Proof.
  induction s as [|c s [r [Hs Hr]]]; simpl.
  - exists "". now split.
  - destruct (isEmpty (strings.TrimRight s cut)) eqn:He;
      destruct (inCutset cut c) eqn:Hc; simpl.
    + apply isEmpty_true in He. rewrite He in Hs. simpl in Hs.
      exists (String c r). simpl. rewrite Hc, Hr. split; [now f_equal | reflexivity].
    + exists r. split; [now f_equal | exact Hr].
    + exists r. split; [now f_equal | exact Hr].
    + exists r. split; [now f_equal | exact Hr].
Qed.

Lemma TrimRight_last (s cut : string) :
  outside cut (lastByte (strings.TrimRight s cut)).
Proof.
  induction s as [|c s IH]; simpl; [exact I|].
  destruct (isEmpty (strings.TrimRight s cut)) eqn:He;
    destruct (inCutset cut c) eqn:Hc; simpl; try exact I.
  - apply isEmpty_true in He. rewrite He. exact Hc.
  - destruct (strings.TrimRight s cut); [discriminate He | exact IH].
  - destruct (strings.TrimRight s cut) eqn:Ht; [exact Hc | exact IH].
Qed.

Lemma TrimRight_first (s cut : string) :
  outside cut (firstByte s) -> outside cut (firstByte (strings.TrimRight s cut)).
Proof.
  destruct s as [|c s]; simpl; [trivial|].
  intros Hc. rewrite Hc, andb_false_r. exact Hc.
Qed.

(** [strings.Trim] removes a run of cutset bytes at each end and leaves
    a string with no cutset byte at either end. *)
Lemma Trim_spec (s cut : string) :
  exists l r,
    s = l ++ strings.Trim s cut ++ r
    /\ allIn cut l = true /\ allIn cut r = true
    /\ outside cut (firstByte (strings.Trim s cut))
    /\ outside cut (lastByte (strings.Trim s cut)).
Proof.
  unfold strings.Trim.
  destruct (TrimLeft_split s cut) as [l [Hl Hlin]].
  destruct (TrimRight_split (strings.TrimLeft s cut) cut) as [r [Hr Hrin]].
  exists l, r. repeat split; try assumption.
  - now rewrite <- Hr.
  - apply TrimRight_first, TrimLeft_first.
  - apply TrimRight_last.
Qed.

(** ** The offset routine *)

Section OffsetFacts.

Variable E : env.

(** What [offset] does once the wrapping decision is taken. *)
Definition writeField (color key val : string) : action :=
  writeKey E key >>
  when_ (negb (isEmpty color)) (bufWrite color) >>
  writeString val >>
  when_ (negb (isEmpty color)) (bufWrite (ansiReset E)).

(** C4.  [offset] trims the value of surrounding newlines and spaces,
    and decides on the state it is given, before it writes anything:
    exactly when (pretty mode is on and the key is not empty) or
    (cursor + key length + 1 + trimmed length >= maxCol), it first emits a
    line break and the indent, which leaves the cursor at the length of
    the indent; the key and the trimmed value are written after that. *)
Theorem offset_wraps_before_writing (color key value : string) (st : state) :
  let val := strings.Trim value (LF ++ " ") in
  let wrap :=
    (isPretty E && negb (isEmpty key))
    || (col st + len key + 1 + len val >=? maxCol E) in
  let st' :=
    if wrap
    then {| col := len (indent E);
            buf := buf st ++ [Raw LF; Tracked (indent E)] |}
    else st in
  offset E color key value st = writeField color key val st'
  /\ (exists l r,
        value = l ++ val ++ r
        /\ allIn (LF ++ " ") l = true /\ allIn (LF ++ " ") r = true
        /\ outside (LF ++ " ") (firstByte val)
        /\ outside (LF ++ " ") (lastByte val)).
Proof.
  intros val wrap st'. split; [|apply Trim_spec].
  unfold offset, writeField, seq. fold val. unfold wraps. fold wrap.
  subst st'. destruct wrap; simpl; [|reflexivity].
  unfold breakLine, seq, bufWrite, setCol, writeString. simpl.
  rewrite <- app_assoc. reflexivity.
Qed.

End OffsetFacts.

(** ** The column cursor *)

(** The strings that went through [writeString], in order. *)
Fixpoint trackedOf (cs : list chunk) : list string :=
  match cs with
  | [] => []
  | Raw _ :: cs' => trackedOf cs'
  | Tracked s :: cs' => s :: trackedOf cs'
  end.

(** Bytes written through [writeString] after the last line break that
    was written on its own, directly on the buffer; [n] is the count on
    entry. *)
Fixpoint sinceBreak (n : Z) (cs : list chunk) : Z :=
  match cs with
  | [] => n
  | Raw s :: cs' => sinceBreak (if String.eqb s LF then 0 else n) cs'
  | Tracked s :: cs' => sinceBreak (n + len s) cs'
  end.

(** The column a terminal is in after printing [s] from column [n]. *)
Fixpoint columnAfter (n : Z) (s : string) : Z :=
  match s with
  | "" => n
  | String c s' => columnAfter (if Ascii.eqb c "010" then 0 else n + 1) s'
  end.

(** Plain characters emitted since the last line break, when the direct
    writes other than a line break are escape sequences. *)
Fixpoint column (n : Z) (cs : list chunk) : Z :=
  match cs with
  | [] => n
  | Raw s :: cs' => column (if String.eqb s LF then 0 else n) cs'
  | Tracked s :: cs' => column (columnAfter n s) cs'
  end.

Definition withTheme (E : env) (t : colorScheme) : env :=
  {| theme := t;
     indent := indent E;
     maxCol := maxCol E;
     isPretty := isPretty E;
     Separator := Separator E;
     contextLines := contextLines E;
     timeKey := timeKey E;
     levelKey := levelKey E;
     nameKey := nameKey E;
     messageKey := messageKey E;
     LevelDebug := LevelDebug E;
     LevelInfo := LevelInfo E;
     LevelWarn := LevelWarn E;
     reservedKeys := reservedKeys E;
     badKeyAtIndex := badKeyAtIndex E;
     LogEntry := LogEntry E;
     callstackString := callstackString E;
     stackTrace := stackTrace E;
     wrapStack := wrapStack E;
     ansiReset := ansiReset E;
     ansiColorCode := ansiColorCode E;
     jsonMarshal := jsonMarshal E |}.

(** The colours of a theme and the reset sequence are escape sequences,
    none of them a bare line break. *)
Definition escapes (E : env) : Prop :=
  Forall (fun c => c <> LF)
    [ansiReset E; Key (theme E); Value (theme E); Misc (theme E);
     Debug (theme E); Info (theme E); Warn (theme E); Error (theme E)].

Definition cursorOk (st : state) : Prop := col st = sinceBreak 0 (buf st).

(** What a state shows of the plain text: the cursor and the strings
    that went through [writeString]. *)
Definition plainView (st : state) : Z * list string :=
  (col st, trackedOf (buf st)).

Lemma sinceBreak_app (n : Z) (xs ys : list chunk) :
  sinceBreak n (xs ++ ys) = sinceBreak (sinceBreak n xs) ys.
Proof.
  revert n. induction xs as [|[s|s] xs IH]; intros n; simpl; auto.
Qed.

Lemma trackedOf_app (xs ys : list chunk) :
  trackedOf (xs ++ ys) = (trackedOf xs ++ trackedOf ys)%list.
Proof.
  induction xs as [|[s|s] xs IH]; simpl; auto. now rewrite IH.
Qed.

Lemma cursorOk_writeString (s : string) (st : state) :
  cursorOk st -> cursorOk (writeString s st).
Proof.
  unfold cursorOk, writeString. simpl. intros H.
  rewrite sinceBreak_app. simpl. now rewrite H.
Qed.

Lemma cursorOk_bufWrite (s : string) (st : state) :
  s <> LF -> cursorOk st -> cursorOk (bufWrite s st).
Proof.
  unfold cursorOk, bufWrite. simpl. intros Hs H.
  rewrite sinceBreak_app. simpl.
  apply String.eqb_neq in Hs. now rewrite Hs.
Qed.

Lemma cursorOk_breakLine (E : env) (st : state) : cursorOk (breakLine E st).
Proof.
  unfold cursorOk, breakLine, seq, bufWrite, setCol, writeString. simpl.
  rewrite !sinceBreak_app. simpl. reflexivity.
Qed.

Lemma cursorOk_when (b : bool) (a : action) (st : state) :
  (cursorOk st -> cursorOk (a st)) -> cursorOk st -> cursorOk (when_ b a st).
Proof. destruct b; simpl; auto. Qed.

Lemma cursorOk_writeField (E : env) (color key val : string) (st : state) :
  ansiReset E <> LF -> Key (theme E) <> LF -> color <> LF ->
  cursorOk st -> cursorOk (writeField E color key val st).
Proof.
  intros Hr Hk Hc H. unfold writeField, writeKey, seq.
  apply cursorOk_when; [now apply cursorOk_bufWrite|].
  apply cursorOk_writeString.
  apply cursorOk_when; [now apply cursorOk_bufWrite|].
  apply cursorOk_when.
  - intros H'. apply cursorOk_bufWrite; [assumption|].
    do 2 apply cursorOk_writeString. now apply cursorOk_bufWrite.
  - now apply cursorOk_writeString.
Qed.

Lemma offset_unfold (E : env) (color key value : string) (st : state) :
  offset E color key value st =
  writeField E color key (strings.Trim value (LF ++ " "))
    (when_ (wraps E st key (strings.Trim value (LF ++ " "))) (breakLine E) st).
Proof. reflexivity. Qed.

Lemma cursorOk_offset (E : env) (color key value : string) (st : state) :
  ansiReset E <> LF -> Key (theme E) <> LF -> color <> LF ->
  cursorOk st -> cursorOk (offset E color key value st).
Proof.
  intros Hr Hk Hc H. rewrite offset_unfold.
  apply cursorOk_writeField; try assumption.
  destruct (wraps E st key _); simpl; [apply cursorOk_breakLine | exact H].
Qed.

Lemma set_cases (E : env) (key : string) (value : goval) (color : string) :
  set E key value color = offset E color key (Sprint value)
  \/ exists msg stack,
       set E key value color = offset E (Error (theme E)) key (msg ++ LF ++ stack).
Proof.
  destruct value; [left | left | right | right | left];
    try reflexivity; unfold set, writeError; simpl; eauto.
Qed.

Lemma cursorOk_set (E : env) (key : string) (value : goval) (color : string)
    (st : state) :
  ansiReset E <> LF -> Key (theme E) <> LF -> Error (theme E) <> LF ->
  color <> LF ->
  cursorOk st -> cursorOk (set E key value color st).
Proof.
  intros Hr Hk He Hc H.
  destruct (set_cases E key value color) as [-> | [msg [stack ->]]];
    now apply cursorOk_offset.
Qed.

Lemma cursorOk_writeFields (E : env) (entry : gmap string goval)
    (order : list string) (st st' : state) :
  ansiReset E <> LF -> Key (theme E) <> LF -> Error (theme E) <> LF ->
  Value (theme E) <> LF ->
  writeFields E entry order st = inl st' ->
  cursorOk st -> cursorOk st'.
Proof.
  intros Hr Hk He Hv. revert st.
  induction order as [|key order IH]; intros st Hw H; simpl in Hw.
  - now inversion Hw; subst.
  - destruct (existsb (String.eqb key) (reservedKeys E)).
    + eauto.
    + eapply IH; [exact Hw|]. now apply cursorOk_set.
Qed.

(** The plain side of [offset]: how the cursor and the tracked strings
    move, whatever the colours are. *)
Definition plainOffset (E : env) (key value : string) (v : Z * list string)
    : Z * list string :=
  let val := strings.Trim value (LF ++ " ") in
  let wrap :=
    (isPretty E && negb (isEmpty key))
    || (fst v + len key + 1 + len val >=? maxCol E) in
  let v1 := if wrap then (len (indent E), snd v ++ [indent E])%list else v in
  let v2 := (fst v1 + len (Separator E), snd v1 ++ [Separator E])%list in
  let v3 :=
    if isEmpty key then v2
    else (fst v2 + len key + len assignmentChar,
          snd v2 ++ [key; assignmentChar])%list in
  (fst v3 + len val, snd v3 ++ [val])%list.

(** The text [set] hands to [offset]. *)
Definition setText (E : env) (value : goval) : string :=
  match asError value with
  | Some err => fst (errorsWrap E err) ++ LF ++ snd (errorsWrap E err)
  | None => Sprint value
  end.

Lemma plainView_offset (E : env) (color key value : string) (st : state) :
  plainView (offset E color key value st) = plainOffset E key value (plainView st).
Proof.
  rewrite offset_unfold. unfold plainOffset, wraps, plainView.
  cbn [fst snd].
  set (val := strings.Trim value (LF ++ " ")).
  unfold writeField, writeKey, breakLine, when_, seq, skip.
  destruct (isPretty E && negb (isEmpty key)
            || (col st + len key + 1 + len val >=? maxCol E));
    destruct (isEmpty key); destruct (isEmpty color);
    unfold bufWrite, setCol, writeString; simpl;
    rewrite ?trackedOf_app; simpl; rewrite <- ?app_assoc; simpl;
    f_equal; first [lia | reflexivity].
Qed.

Lemma plainView_set (E : env) (key : string) (value : goval) (color : string)
    (st : state) :
  plainView (set E key value color st)
  = plainOffset E key (setText E value) (plainView st).
Proof.
  destruct value; simpl; unfold writeError; apply plainView_offset.
Qed.

Lemma plainOffset_withTheme (E : env) (t : colorScheme) (key value : string)
    (v : Z * list string) :
  plainOffset (withTheme E t) key value v = plainOffset E key value v.
Proof. reflexivity. Qed.

Lemma setText_withTheme (E : env) (t : colorScheme) (value : goval) :
  setText (withTheme E t) value = setText E value.
Proof. reflexivity. Qed.

Definition viewOf {A : Type} (r : (state * A) + failure)
    : (Z * list string) + failure :=
  match r with
  | inl (st, _) => inl (plainView st)
  | inr f => inr f
  end.

Definition fieldsView (r : state + failure) : (Z * list string) + failure :=
  match r with
  | inl st => inl (plainView st)
  | inr f => inr f
  end.

Lemma writeFields_withTheme (E : env) (t : colorScheme)
    (entry : gmap string goval) (order : list string) (st1 st2 : state) :
  plainView st1 = plainView st2 ->
  fieldsView (writeFields (withTheme E t) entry order st1)
  = fieldsView (writeFields E entry order st2).
Proof.
  revert st1 st2. induction order as [|key order IH]; intros st1 st2 Hv; simpl.
  - now rewrite Hv.
  - destruct (existsb (String.eqb key) (reservedKeys E)).
    + now apply IH.
    + apply IH. rewrite !plainView_set, Hv. reflexivity.
Qed.

Lemma getLevelContext_color (E : env) (level : Z) :
  In (snd (getLevelContext E level))
     [Debug (theme E); Info (theme E); Warn (theme E); Error (theme E)].
Proof.
  unfold getLevelContext.
  destruct (level =? LevelDebug E); [simpl; auto|].
  destruct (level =? LevelInfo E); [simpl; auto|].
  destruct (level =? LevelWarn E); simpl; auto.
Qed.

(** The claim as it is worded: the cursor is the column of the plain
    text, counted from the last line break. *)
Definition cursorIsColumn (E : env) : Prop :=
  forall level msg args st cc,
    writeRecord E level msg args = inl (st, cc) ->
    col st = column 0 (buf st).

(** C10, counterexample.  A message with a line break inside it: the
    cursor goes on counting across the break (27 bytes tracked), while
    only one plain character follows the last line break. *)
Lemma cursor_counts_across_embedded_breaks :
  ~ cursorIsColumn Sample.sampleEnv.
Proof.
  intros H.
  specialize (H 7 ("a" ++ LF ++ "b") [] _ _ eq_refl).
  vm_compute in H. discriminate H.
Qed.

(** C10, amended.  Within one record every colour and reset sequence is
    written directly on the buffer and only plain strings go through
    [writeString]: the cursor is the number of bytes that went through
    [writeString] since the record began or since the last line break
    [offset] emitted (a line break inside a value counts as one more
    byte and does not reset it), and neither the cursor nor the strings
    tracked, hence no wrapping decision, depends on the theme. *)
Theorem cursor_counts_tracked_bytes (E : env) (level : Z) (msg : string)
    (args : list goval) :
  escapes E ->
  (forall st cc,
     writeRecord E level msg args = inl (st, cc) ->
     col st = sinceBreak 0 (buf st))
  /\ (forall t,
        viewOf (writeRecord (withTheme E t) level msg args)
        = viewOf (writeRecord E level msg args)).
Proof.
  intros Hesc. split.
  - intros st cc Hw.
    unfold escapes in Hesc. rewrite !Forall_cons in Hesc.
    destruct Hesc as (Hr & Hk & Hv & Hm & Hd & Hi & Hwn & He & _).
    pose proof (getLevelContext_color E level) as Hcol.
    unfold writeRecord in Hw.
    destruct (entryAt _ (timeKey E)) as [| t | | |]; try discriminate.
    destruct (getLevelContext E level) as [context color]. simpl in Hcol.
    assert (Hc : color <> LF).
    { destruct Hcol as [<-|[<-|[<-|[<-|[]]]]]; assumption. }
    destruct (entryAt _ (levelKey E)) as [| l | | |]; try discriminate.
    destruct (writeFields _ _ _ _) as [st'|f] eqn:Hf; [|discriminate].
    inversion Hw; subst st' cc. clear Hw.
    eapply cursorOk_writeFields in Hf; try eassumption.
    unfold seq.
    repeat apply cursorOk_set; try assumption.
    apply cursorOk_bufWrite; [assumption|].
    apply cursorOk_writeString.
    apply cursorOk_bufWrite; [assumption|].
    reflexivity.
  - intros t. unfold writeRecord. simpl.
    destruct (entryAt _ (timeKey E)) as [| ts | | |]; try reflexivity.
    destruct (getLevelContext (withTheme E t) level) as [context1 color1].
    destruct (getLevelContext E level) as [context2 color2].
    destruct (entryAt _ (levelKey E)) as [| l | | |]; try reflexivity.
    match goal with
    | |- viewOf match writeFields _ ?en ?o ?s1 with _ => _ end
         = viewOf match writeFields _ _ _ ?s2 with _ => _ end =>
        pose proof (writeFields_withTheme E t en o s1 s2) as Hf
    end.
    destruct (writeFields (withTheme E t) _ _ _);
      destruct (writeFields E _ _ _); simpl in *; apply Hf;
      unfold seq; rewrite !plainView_set; reflexivity.
Qed.

(** The amended statement at the sample environment, for a message with
    a line break inside it. *)
Lemma cursor_counts_tracked_bytes_sample :
  escapes Sample.sampleEnv
  /\ (forall st cc,
        writeRecord Sample.sampleEnv 7 ("a" ++ LF ++ "b") [] = inl (st, cc) ->
        col st = sinceBreak 0 (buf st)).
Proof.
  assert (H : escapes Sample.sampleEnv).
  { unfold escapes. repeat constructor; vm_compute; discriminate. }
  split; [exact H|].
  apply (cursor_counts_tracked_bytes Sample.sampleEnv 7 ("a" ++ LF ++ "b") [] H).
Defined.

(** ** Call-site context by level *)

Section LevelContext.

Variable E : env.

(** How the warn path prints a frame, and how the default path does. *)
Definition warnFrame (call : Call) : string :=
  callstackString E call (-1) (Warn (theme E)) (Source (theme E)).

Definition errorFrame (call : Call) : string :=
  callstackString E call (contextLines E) (Error (theme E)) (Source (theme E)).

(** The contexts of the frames that have one. *)
Definition resolvable (trace : list Call) : list string :=
  List.filter (fun ctx => negb (isEmpty ctx)) (map errorFrame trace).

(** Each string followed by a line break. *)
Fixpoint lines (l : list string) : string :=
  match l with
  | [] => ""
  | s :: l' => s ++ LF ++ lines l'
  end.

Lemma lines_concat (l : list string) :
  lines l = String.concat LF l ++ match l with [] => "" | _ => LF end.
Proof.
  induction l as [|s l IH]; [reflexivity|].
  simpl lines. rewrite IH. destruct l as [|s' l]; simpl;
    rewrite ?append_empty_r, ?append_assoc; reflexivity.
Qed.

Lemma warnLoop_skips (trace : list Call) (i : nat) :
  (i <= 4)%nat ->
  warnLoop E i trace =
  match trace !! (4 - i)%nat with
  | Some call => warnFrame call
  | None => ""
  end.
Proof.
  revert i. induction trace as [|call trace IH]; intros i Hi; simpl.
  - reflexivity.
  - destruct (Nat.ltb_spec i 4) as [Hlt|Hge].
    + rewrite IH by lia. replace (4 - i)%nat with (S (4 - S i)) by lia.
      reflexivity.
    + replace (4 - i)%nat with 0%nat by lia. reflexivity.
Qed.

Lemma errorLoop_collects (trace : list Call) (i : nat) (errbuf : string) :
  (3 <= i)%nat ->
  errorLoop E i trace errbuf = errbuf ++ lines (resolvable trace).
Proof.
  revert i errbuf. induction trace as [|call trace IH]; intros i errbuf Hi; simpl.
  - now rewrite append_empty_r.
  - destruct (Nat.ltb_spec i 3) as [Hlt|_]; [lia|].
    unfold resolvable. simpl. fold (resolvable trace).
    destruct (isEmpty (errorFrame call)) eqn:He; simpl;
      unfold errorFrame in He; rewrite He; rewrite IH by lia.
    + reflexivity.
    + now rewrite !append_assoc.
Qed.

Lemma errorLoop_skips (trace : list Call) (i : nat) (errbuf : string) :
  (i <= 3)%nat ->
  errorLoop E i trace errbuf = errorLoop E 3 (drop (3 - i) trace) errbuf.
Proof.
  revert i. induction trace as [|call trace IH]; intros i Hi.
  - now rewrite drop_nil.
  - destruct (Nat.eq_dec i 3%nat) as [->|Hne]; [reflexivity|].
    simpl errorLoop at 1.
    destruct (Nat.ltb_spec i 3) as [_|Hge]; [|lia].
    rewrite IH by lia. replace (3 - i)%nat with (S (3 - S i)) by lia.
    reflexivity.
Qed.

Definition levelsDistinct : Prop :=
  LevelDebug E <> LevelInfo E
  /\ LevelDebug E <> LevelWarn E
  /\ LevelInfo E <> LevelWarn E.

(** C6.  [getLevelContext] treats the levels differently.  For warn the
    first four frames are passed over, the frame at index 4 alone is
    printed and the walk stops; the context is empty when the trace has
    no such frame.  For error, fatal and every other level the first
    three frames are passed over and every later frame is printed; a
    frame whose context is empty is left out and the walk goes on; the
    contexts that remain are put together with a line break between
    them (and one more after the last).  The level constants are
    distinct, as the cases of a Go switch must be. *)
Theorem getLevelContext_by_level :
  levelsDistinct ->
  getLevelContext E (LevelWarn E) =
    (match stackTrace E !! 4%nat with
     | Some call => warnFrame call
     | None => ""
     end, Warn (theme E))
  /\ (forall level,
        level <> LevelDebug E -> level <> LevelInfo E ->
        level <> LevelWarn E ->
        let ctxs := resolvable (drop 3 (stackTrace E)) in
        getLevelContext E level =
          (String.concat LF ctxs ++ match ctxs with [] => "" | _ => LF end,
           Error (theme E))).
Proof.
  intros Hnd.
  destruct Hnd as (Hdi & Hdw & Hiw).
  split.
  - unfold getLevelContext.
    rewrite (proj2 (Z.eqb_neq _ _)) by congruence.
    rewrite (proj2 (Z.eqb_neq _ _)) by congruence.
    rewrite Z.eqb_refl, warnLoop_skips by lia. reflexivity.
  - intros level H1 H2 H3 ctxs. unfold getLevelContext.
    rewrite !(proj2 (Z.eqb_neq _ _)) by assumption.
    rewrite errorLoop_skips by lia.
    rewrite errorLoop_collects by lia.
    simpl. subst ctxs. now rewrite lines_concat.
Qed.

End LevelContext.

(** The sample environment: a warning names the frame at index 4 only,
    an error the frames from index 3 on that have a source. *)
Lemma getLevelContext_by_level_sample :
  getLevelContext Sample.sampleEnv 4 =
    (Sample.ESC ++ "[0;35mmain.go:14", Sample.ESC ++ "[0;33m")
  /\ fst (getLevelContext Sample.sampleEnv 3) =
     Sample.ESC ++ "[0;35mmain.go:13" ++ LF ++
     Sample.ESC ++ "[0;35mmain.go:14" ++ LF ++
     Sample.ESC ++ "[0;35mmain.go:16" ++ LF.
Proof.
  assert (Hnd : levelsDistinct Sample.sampleEnv).
  { unfold levelsDistinct. simpl. lia. }
  destruct (getLevelContext_by_level Sample.sampleEnv Hnd) as [Hw He].
  split.
  - exact Hw.
  - rewrite (He 3); [reflexivity | simpl; lia ..].
Defined.

(** ** Themes: the wildcard and the slots *)

Section Theme.

Variable E : env.

(** The style a theme specification gives to a name; none reads as the
    empty style. *)
Definition styleOf (m : gmap string string) (name : string) : string :=
  default "" (m !! name).

Lemma themeColor_wildcard (m : gmap string string) :
  themeColor E m "" "*" = ansiColorCode E (styleOf m "*").
Proof.
  unfold themeColor, styleOf.
  destruct (isEmpty (ansiColorCode E (default "" (m !! "*")))) eqn:He.
  - apply isEmpty_true in He. now rewrite He.
  - reflexivity.
Qed.

Lemma parseKVList_example :
  let m := parseKVList "*=blue,key=red" "," in
  styleOf m "*" = "blue" /\ styleOf m "key" = "red"
  /\ Forall (fun name => styleOf m name = "")
       ["value"; "misc"; "source"; "DBG"; "INF"; "WRN"; "ERR"].
Proof.
  vm_compute. repeat split. repeat constructor.
Qed.

(** C5.  Every slot of the parsed theme holds the code its own style
    resolves to when that code is not empty, and the code of the
    wildcard otherwise; the wildcard, reset or not, is thus what every
    slot starts from and a slot's own non-empty code always wins.  For
    [*=blue,key=red], with a resolver that gives nothing for the empty
    style and something for [red], the key slot is the code of [red] and
    the seven other slots are the code of [blue]. *)
Theorem parseTheme_wildcard_precedence :
  (forall spec : string,
     let m := parseKVList spec "," in
     let wildcard := ansiColorCode E (styleOf m "*") in
     let slot name :=
       if isEmpty (ansiColorCode E (styleOf m name)) then wildcard
       else ansiColorCode E (styleOf m name) in
     parseTheme E spec =
       {| Key := slot "key"; Value := slot "value"; Misc := slot "misc";
          Source := slot "source"; Debug := slot "DBG"; Info := slot "INF";
          Warn := slot "WRN"; Error := slot "ERR" |})
  /\ (ansiColorCode E "" = "" -> ansiColorCode E "red" <> "" ->
      let red := ansiColorCode E "red" in
      let blue := ansiColorCode E "blue" in
      parseTheme E "*=blue,key=red" =
        {| Key := red; Value := blue; Misc := blue; Source := blue;
           Debug := blue; Info := blue; Warn := blue; Error := blue |}).
Proof.
  assert (Hgen : forall spec : string,
     let m := parseKVList spec "," in
     let wildcard := ansiColorCode E (styleOf m "*") in
     let slot name :=
       if isEmpty (ansiColorCode E (styleOf m name)) then wildcard
       else ansiColorCode E (styleOf m name) in
     parseTheme E spec =
       {| Key := slot "key"; Value := slot "value"; Misc := slot "misc";
          Source := slot "source"; Debug := slot "DBG"; Info := slot "INF";
          Warn := slot "WRN"; Error := slot "ERR" |}).
  { intros spec m wildcard slot. unfold parseTheme. fold m.
    rewrite themeColor_wildcard. fold wildcard.
    destruct (negb (String.eqb wildcard (ansiReset E))); reflexivity. }
  split; [exact Hgen|].
  intros Hempty Hred red blue. rewrite Hgen.
  destruct parseKVList_example as (Hw & Hk & Hrest).
  rewrite !Forall_cons in Hrest.
  destruct Hrest as (Hv & Hm & Hs & Hd & Hi & Hwn & He & _).
  rewrite Hw, Hk, Hv, Hm, Hs, Hd, Hi, Hwn, He, Hempty.
  apply isEmpty_false in Hred. rewrite Hred. reflexivity.
Qed.

End Theme.

(** The sample resolver: [red] and [blue] resolve, the empty style does
    not. *)
Lemma parseTheme_wildcard_precedence_sample :
  parseTheme Sample.sampleEnv "*=blue,key=red" =
    {| Key := Sample.ESC ++ "[0;31m"; Value := Sample.ESC ++ "[0;34m";
       Misc := Sample.ESC ++ "[0;34m"; Source := Sample.ESC ++ "[0;34m";
       Debug := Sample.ESC ++ "[0;34m"; Info := Sample.ESC ++ "[0;34m";
       Warn := Sample.ESC ++ "[0;34m"; Error := Sample.ESC ++ "[0;34m" |}.
Proof.
  apply (proj2 (parseTheme_wildcard_precedence Sample.sampleEnv)).
  - reflexivity.
  - vm_compute. discriminate.
Defined.

(** ** The keys of an argument list *)

Section Keys.

Variable E : env.

(** The name a pair is rendered under: its key, or the placeholder of its
    position when the key is not a string. *)
Definition fieldName (i : nat) (k : goval) : string :=
  match k with
  | VString key => key
  | _ => badKeyAtIndex E i
  end.

(** The names of the complete pairs, from position [i] on. *)
Fixpoint pairNames (i : nat) (args : list goval) : list string :=
  match args with
  | k :: _ :: rest => fieldName i k :: pairNames (S (S i)) rest
  | _ => []
  end.

Lemma list_pair_ind {A : Type} (P : list A -> Prop) :
  P [] -> (forall x, P [x]) -> (forall x y l, P l -> P (x :: y :: l)) ->
  forall l, P l.
Proof.
  intros Hnil Hone Hstep.
  fix IH 1. intros [|x [|y l]]; [exact Hnil | apply Hone | apply Hstep, IH].
Qed.

Lemma orderLoop_keysFrom (args : list goval) (i n : nat) :
  n = (i + List.length args)%nat ->
  orderLoop E n (keysFrom i args) = pairNames i args.
Proof.
  revert i. induction args as [|x|x y l IH] using list_pair_ind;
    intros i Hn; simpl in *.
  - reflexivity.
  - destruct (Nat.leb_spec n (i + 1)) as [_|Hlt]; [reflexivity | lia].
  - destruct (Nat.leb_spec n (i + 1)) as [Hle|_]; [lia|].
    rewrite (IH (S (S i))) by lia. destruct x; reflexivity.
Qed.

Lemma orderOf_pairNames (args : list goval) :
  orderOf E args = pairNames 0 args.
Proof. unfold orderOf. now apply orderLoop_keysFrom. Qed.

Lemma pairNames_app (pre rest : list goval) (i : nat) :
  Nat.Even (List.length pre) ->
  pairNames i (pre ++ rest)
  = (pairNames i pre ++ pairNames (i + List.length pre) rest)%list.
Proof.
  revert i. induction pre as [|x|x y l IH] using list_pair_ind;
    intros i Hev; simpl in *.
  - now rewrite Nat.add_0_r.
  - destruct Hev as [m Hm]. lia.
  - rewrite IH.
    + do 3 f_equal. lia.
    + destruct Hev as [m Hm]. exists (m - 1)%nat. lia.
Qed.

Lemma pairNames_length (args : list goval) (i : nat) :
  List.length (pairNames i args) = (List.length args / 2)%nat.
Proof.
  revert i. induction args as [|x|x y l IH] using list_pair_ind;
    intros i; simpl pairNames; simpl List.length.
  - reflexivity.
  - reflexivity.
  - rewrite IH. change (S (S (List.length l))) with (2 + List.length l)%nat.
    replace (2 + List.length l)%nat with (1 * 2 + List.length l)%nat by lia.
    rewrite Nat.div_add_l by lia. lia.
Qed.

Lemma keysFrom_app (pre rest : list goval) (i : nat) :
  Nat.Even (List.length pre) ->
  keysFrom i (pre ++ rest)
  = (keysFrom i pre ++ keysFrom (i + List.length pre) rest)%list.
Proof.
  revert i. induction pre as [|x|x y l IH] using list_pair_ind;
    intros i Hev; simpl in *.
  - now rewrite Nat.add_0_r.
  - destruct Hev as [m Hm]. lia.
  - rewrite IH.
    + do 3 f_equal. lia.
    + destruct Hev as [m Hm]. exists (m - 1)%nat. lia.
Qed.

(** An argument list cut at an even position. *)
Lemma split_at_even (args : list goval) (i : nat) (k : goval) :
  Nat.Even i -> args !! i = Some k ->
  exists pre rest,
    args = (pre ++ k :: rest)%list /\ List.length pre = i.
Proof.
  intros _ Hk. exists (take i args), (drop (S i) args). split.
  - symmetry. now apply take_drop_middle.
  - apply length_take_le. apply lookup_lt_Some in Hk. lia.
Qed.

End Keys.

(** ** Keys that are not strings *)

Section NonStringKeys.

Variable E : env.

Lemma validate_reports (ks : list (nat * goval)) (i : nat) (k : goval)
    (d : diag) (ds : list diag) :
  In (i, k) ks -> checkKey E i k = Diagnose d ->
  validate E ks = (ds, None) -> In d ds.
Proof.
  revert ds. induction ks as [|[j x] ks IH]; intros ds Hin Hd Hv.
  - destruct Hin.
  - simpl in Hv. destruct Hin as [Heq|Hin].
    + inversion Heq; subst j x. rewrite Hd in Hv.
      destruct (validate E ks) as [ds' r]. inversion Hv. now left.
    + destruct (checkKey E j x) as [|d'|f].
      * now apply IH.
      * destruct (validate E ks) as [ds' r] eqn:Hks.
        inversion Hv; subst ds r. right. now apply IH.
      * discriminate.
Qed.

Lemma keysFrom_at (pre rest : list goval) (k : goval) :
  Nat.Even (List.length pre) ->
  In (List.length pre, k) (keysFrom 0 (pre ++ k :: rest)).
Proof.
  intros Hev. rewrite keysFrom_app by assumption.
  apply in_or_app. right. simpl. now left.
Qed.

Lemma Format_validated (level : Z) (msg : string) (args : list goval)
    (ds : list diag) (out : list chunk) :
  Format E level msg args = (ds, Rendered out) ->
  validate E (keysFrom 0 args) = (ds, None).
Proof.
  unfold Format. destruct (validate E (keysFrom 0 args)) as [ds' [f|]];
    intros H; inversion H; reflexivity.
Qed.

(** C7, amended.  A key that is not a string draws a diagnostic that
    names its position and does not stop the call: whenever [Format]
    renders, that diagnostic is among those it issued.  The pair is not
    left out of the render order: when the key has a value after it, the
    pair stands at its place in call order under the placeholder
    [badKeyAtIndex(i)]. *)
Theorem nonstring_key_diagnosed_and_placed (args : list goval) (i : nat)
    (k : goval) :
  Nat.Even i -> args !! i = Some k -> isReservedKey E k = None ->
  checkKey E i k = Diagnose (KeyNotString i (Sprint k))
  /\ (forall level msg ds out,
        Format E level msg args = (ds, Rendered out) ->
        In (KeyNotString i (Sprint k)) ds)
  /\ ((i + 1 < List.length args)%nat ->
      orderOf E args !! (i / 2)%nat = Some (badKeyAtIndex E i)).
Proof.
  intros Hev Hk Hns.
  assert (Hck : checkKey E i k = Diagnose (KeyNotString i (Sprint k))).
  { unfold checkKey. now rewrite Hns. }
  destruct (split_at_even args i k Hev Hk) as (pre & rest & -> & Hlen).
  subst i. split; [exact Hck|]. split.
  - intros level msg ds out HF. apply Format_validated in HF.
    eapply validate_reports; [|exact Hck|exact HF].
    now apply keysFrom_at.
  - intros Hlt. rewrite orderOf_pairNames, pairNames_app by assumption.
    rewrite length_app in Hlt. simpl in Hlt.
    destruct rest as [|v rest]; [simpl in Hlt; lia|].
    rewrite lookup_app_r; rewrite pairNames_length; [|lia].
    rewrite Nat.sub_diag. simpl.
    destruct k; simpl in Hns; try discriminate; reflexivity.
Qed.

(** The claim as it is worded, taken at an argument list none of whose
    keys is a string: no pair would reach the render order. *)
Definition nonStringPairsSkipped : Prop :=
  forall args : list goval,
    (forall i k, Nat.Even i -> args !! i = Some k -> isReservedKey E k = None) ->
    orderOf E args = [].

End NonStringKeys.

(** C7, counterexample.  The call with the single pair [1, "x"]: its key
    is not a string, yet the render order is not empty; it holds the
    placeholder for position 0. *)
Lemma nonstring_key_takes_a_place :
  ~ nonStringPairsSkipped Sample.sampleEnv.
Proof.
  intros H. specialize (H [VOther "1"; VString "x"]).
  assert (Ho : orderOf Sample.sampleEnv [VOther "1"; VString "x"]
               = ["BAD_KEY_AT_INDEX_0"]) by reflexivity.
  rewrite H in Ho; [discriminate|].
  intros i k Hev Hk.
  destruct i as [|[|i]]; simpl in Hk.
  - inversion Hk. reflexivity.
  - destruct Hev as [m Hm]. lia.
  - discriminate Hk.
Qed.

Lemma nonstring_key_diagnosed_and_placed_sample :
  In (KeyNotString 0 "1")
     (fst (Format Sample.sampleEnv 7 "ok" [VOther "1"; VString "x"]))
  /\ orderOf Sample.sampleEnv [VOther "1"; VString "x"] !! 0%nat
     = Some "BAD_KEY_AT_INDEX_0".
Proof.
  assert (Hev : Nat.Even 0) by (exists 0%nat; reflexivity).
  destruct (nonstring_key_diagnosed_and_placed Sample.sampleEnv
              [VOther "1"; VString "x"] 0 (VOther "1") Hev eq_refl eq_refl)
    as (_ & Hd & Ho).
  split.
  - destruct (Format Sample.sampleEnv 7 "ok" [VOther "1"; VString "x"])
      as [ds [out|f]] eqn:HF.
    + exact (Hd _ _ _ _ HF).
    + vm_compute in HF. discriminate HF.
  - apply Ho. simpl. lia.
Defined.

(** ** Argument lists of odd length *)

Definition occurrences (s : string) (l : list string) : nat :=
  List.length (List.filter (String.eqb s) l).

(** The claim as it is worded, for a sentinel that may depend on the
    position of the unmatched key: it is among the strings written,
    once. *)
Definition rendersSentinelOnce (E : env) (sentinel : nat -> string) : Prop :=
  forall level msg args ds out,
    Nat.Odd (List.length args) ->
    Format E level msg args = (ds, Rendered out) ->
    occurrences (sentinel (List.length args - 1)%nat) (trackedOf out) = 1%nat.

(** C2, counterexample.  The call [Info("hello", "a", "apple", "b")]: the
    key ["b"] has no value.  The entry holds a field under the imbalance
    key, but the record is rendered without it and without a placeholder
    for position 2: neither is among the strings written. *)
Lemma odd_args_render_no_sentinel :
  ~ rendersSentinelOnce Sample.sampleEnv (fun _ => Sample.warnImbalancedKey)
  /\ ~ rendersSentinelOnce Sample.sampleEnv Sample.badKey.
Proof.
  assert (Hodd : Nat.Odd (List.length [VString "a"; VString "apple"; VString "b"])).
  { exists 1%nat. reflexivity. }
  split; intros H;
    specialize (H 6 "hello" [VString "a"; VString "apple"; VString "b"]
                  _ _ Hodd eq_refl);
    vm_compute in H; discriminate H.
Qed.

(** What is written for that call: the fields of the complete pair and
    nothing else. *)
Example Format_odd_args :
  let args := [VString "a"; VString "apple"; VString "b"] in
  Sample.logEntry 6 "hello" args !! Sample.warnImbalancedKey
    = Some (VOther "[...]")
  /\ exists out,
       Format Sample.sampleEnv 6 "hello" args = ([], Rendered out)
       /\ trackedOf out =
            ["12:00:00.000000"; " "; "INF"; " "; "app"; " "; "hello";
             " "; "a"; ": "; "apple"].
Proof.
  split; [vm_compute; reflexivity|].
  eexists. split; vm_compute; reflexivity.
Qed.

(** C2, amended.  In an argument list of odd length the second loop of
    [Format] passes over the key that has no value: the render order is
    the one of the list without that key, one name for each complete
    pair, in call order. *)
Theorem unmatched_key_left_out (E : env) (args : list goval) (k : goval) :
  Nat.Even (List.length args) ->
  orderOf E (args ++ [k]) = orderOf E args
  /\ orderOf E (args ++ [k]) = pairNames E 0 args
  /\ List.length (orderOf E (args ++ [k])) = (List.length args / 2)%nat.
Proof.
  intros Hev.
  assert (Heq : orderOf E (args ++ [k]) = orderOf E args).
  { rewrite !orderOf_pairNames, pairNames_app by assumption.
    simpl. apply app_nil_r. }
  rewrite Heq, orderOf_pairNames. repeat split. apply pairNames_length.
Qed.

Lemma unmatched_key_left_out_sample :
  orderOf Sample.sampleEnv [VString "a"; VString "apple"; VString "b"] = ["a"].
Proof.
  assert (Hev : Nat.Even (List.length [VString "a"; VString "apple"])).
  { exists 1%nat. reflexivity. }
  destruct (unmatched_key_left_out Sample.sampleEnv
              [VString "a"; VString "apple"] (VString "b") Hev) as (Heq & _ & _).
  exact Heq.
Defined.

(** ** The validation loop *)

Section Validation.

Variable E : env.

Definition reserved (key : string) : bool :=
  existsb (String.eqb key) (reservedKeys E).

(** [string(b) == `"` + key + `"`] for [b] the JSON encoding of [key]. *)
Definition roundTrips (key : string) : bool :=
  match jsonMarshal E key with
  | inl b => String.eqb b (DQ ++ key ++ DQ)
  | inr _ => false
  end.

(** The panic the loop raises on a key that does not round-trip. *)
Definition keyPanic (key : string) : failure :=
  match jsonMarshal E key with
  | inl _ => PanicKeyComplex key
  | inr err => PanicKeyInvalid err
  end.

Lemma roundTrips_spec (key : string) :
  roundTrips key = true <-> jsonMarshal E key = inl (DQ ++ key ++ DQ).
Proof.
  unfold roundTrips. destruct (jsonMarshal E key) as [b|err].
  - rewrite String.eqb_eq. split; [now intros -> | now inversion 1].
  - split; discriminate.
Qed.

Lemma checkKey_string (i : nat) (key : string) :
  checkKey E i (VString key) =
    if reserved key then Stop (FatalReservedKey key)
    else if roundTrips key then Pass
    else Stop (keyPanic key).
Proof.
  unfold checkKey, reserved, roundTrips, keyPanic. simpl.
  destruct (existsb _ _); [reflexivity|].
  destruct (jsonMarshal E key) as [b|err]; [|reflexivity].
  destruct (String.eqb b _); reflexivity.
Qed.

Lemma checkKey_stop (i : nat) (k : goval) (f : failure) :
  checkKey E i k = Stop f ->
  exists key,
    k = VString key
    /\ ((reserved key = true /\ f = FatalReservedKey key)
        \/ (reserved key = false /\ roundTrips key = false /\ f = keyPanic key)).
Proof.
  destruct k as [|key|m|m s|r]; try (simpl; discriminate).
  rewrite checkKey_string. intros H. exists key. split; [reflexivity|].
  destruct (reserved key); [left | right].
  - now inversion H.
  - destruct (roundTrips key); [discriminate | now inversion H].
Qed.

Lemma validate_app (ks1 ks2 : list (nat * goval)) :
  validate E (ks1 ++ ks2) =
    match validate E ks1 with
    | (ds1, Some f) => (ds1, Some f)
    | (ds1, None) =>
        let (ds2, r) := validate E ks2 in ((ds1 ++ ds2)%list, r)
    end.
Proof.
  induction ks1 as [|[i k] ks1 IH]; simpl.
  - now destruct (validate E ks2).
  - destruct (checkKey E i k) as [|d|f]; [exact IH | | reflexivity].
    rewrite IH. destruct (validate E ks1) as [ds1 [f|]]; [reflexivity|].
    now destruct (validate E ks2).
Qed.

(** A failure of the loop is the failure of one of its iterations. *)
Lemma validate_stop (ks : list (nat * goval)) (ds : list diag) (f : failure) :
  validate E ks = (ds, Some f) ->
  exists i k, In (i, k) ks /\ checkKey E i k = Stop f.
Proof.
  revert ds. induction ks as [|[i k] ks IH]; intros ds H; simpl in H.
  - discriminate.
  - destruct (checkKey E i k) as [|d|f'] eqn:Hc.
    + destruct (IH _ H) as (j & x & Hin & Hx). exists j, x. split; [now right | exact Hx].
    + destruct (validate E ks) as [ds' r]. inversion H; subst.
      destruct (IH _ eq_refl) as (j & x & Hin & Hx).
      exists j, x. split; [now right | exact Hx].
    + inversion H; subst. exists i, k. split; [now left | exact Hc].
Qed.

Lemma keysFrom_In (args : list goval) (i0 j : nat) (k : goval) :
  In (j, k) (keysFrom i0 args) ->
  exists n, j = (i0 + 2 * n)%nat /\ args !! (2 * n)%nat = Some k.
Proof.
  revert i0. induction args as [|x|x y l IH] using list_pair_ind;
    intros i0 Hin; simpl in Hin.
  - destruct Hin.
  - destruct Hin as [Heq|[]]. inversion Heq; subst. exists 0%nat.
    split; [lia | reflexivity].
  - destruct Hin as [Heq|Hin].
    + inversion Heq; subst. exists 0%nat. split; [lia | reflexivity].
    + destruct (IH _ Hin) as (n & -> & Hn). exists (S n). split; [lia|].
      replace (2 * S n)%nat with (S (S (2 * n))) by lia. exact Hn.
Qed.

(** What [Format] does after the loop fails in its own ways only. *)
Lemma writeFields_total (entry : gmap string goval) (order : list string)
    (st : state) :
  exists st', writeFields E entry order st = inl st'.
Proof.
  revert st. induction order as [|key order IH]; intros st; simpl.
  - now exists st.
  - destruct (existsb (String.eqb key) (reservedKeys E)); apply IH.
Qed.

Lemma render_failure (level : Z) (msg : string) (args : list goval)
    (f : failure) :
  render E level msg args = Failed f -> exists what, f = PanicNotAString what.
Proof.
  unfold render, writeRecord.
  destruct (entryAt _ (timeKey E));
    try (intros H; injection H as <-; eexists; reflexivity).
  destruct (getLevelContext E level) as [context color].
  destruct (entryAt _ (levelKey E));
    try (intros H; injection H as <-; eexists; reflexivity).
  match goal with
  | |- context [writeFields E ?en ?o ?s] =>
      destruct (writeFields_total en o s) as [st' ->]
  end.
  discriminate.
Qed.

Definition isValidationFailure (f : failure) : Prop :=
  match f with
  | FatalReservedKey _ | PanicKeyInvalid _ | PanicKeyComplex _ => True
  | _ => False
  end.

Lemma keyPanic_kind (key : string) : isValidationFailure (keyPanic key).
Proof. unfold keyPanic. now destruct (jsonMarshal E key). Qed.

(** C3, amended.  When some key at an even position is a reserved key,
    [Format] never gets past its validation loop: it returns nothing and
    ends in the fatal usage error or in the panic of the key check.  It
    is the fatal usage error whenever no key before that position is a
    string, not reserved, that fails the quoting check. *)
Theorem reserved_key_stops_Format (level : Z) (msg : string)
    (args : list goval) (i : nat) (key : string) :
  Nat.Even i -> args !! i = Some (VString key) -> reserved key = true ->
  exists ds f,
    Format E level msg args = (ds, Failed f)
    /\ isValidationFailure f
    /\ ((forall j k', (j < i)%nat -> Nat.Even j ->
           args !! j = Some (VString k') ->
           reserved k' = false -> roundTrips k' = true) ->
        exists key', reserved key' = true /\ f = FatalReservedKey key').
Proof.
  intros Hev Hk Hres.
  destruct (split_at_even args i _ Hev Hk) as (pre & rest & -> & Hlen).
  subst i. unfold Format.
  rewrite keysFrom_app by assumption.
  rewrite validate_app.
  destruct (validate E (keysFrom 0 pre)) as [ds1 [f|]] eqn:Hpre.
  - exists ds1, f. split; [reflexivity|].
    destruct (validate_stop _ _ _ Hpre) as (j & k & Hin & Hstop).
    destruct (checkKey_stop _ _ _ Hstop) as (key0 & -> & Hcase).
    destruct (keysFrom_In _ _ _ _ Hin) as (n & Hj & Hn). simpl in Hj.
    destruct Hcase as [[Hr ->]|(Hr & Hrt & ->)].
    + split; [exact I|]. intros _. now exists key0.
    + split; [apply keyPanic_kind|]. intros Hsimple. exfalso.
      assert (Hrt' : roundTrips key0 = true).
      { apply (Hsimple (2 * n)%nat); try assumption.
        - apply lookup_lt_Some in Hn. lia.
        - exists n. lia.
        - now apply lookup_app_l_Some. }
      congruence.
  - simpl keysFrom. simpl validate. rewrite checkKey_string, Hres.
    rewrite app_nil_r.
    exists ds1, (FatalReservedKey key). split; [reflexivity|].
    split; [exact I|]. intros _. now exists key.
Qed.

(** The claim as it is worded: a reserved key at an even position always
    ends the call in the fatal usage error. *)
Definition reservedKeyAlwaysFatal : Prop :=
  forall level msg args i key,
    Nat.Even i -> args !! i = Some (VString key) -> reserved key = true ->
    exists ds key', Format E level msg args = (ds, Failed (FatalReservedKey key')).

End Validation.

(** C3, counterexample.  A call of [Info] with two pairs: the key at
    position 2 is the reserved key [t], but the key at position 0 holds
    a double quote, needs escaping, and the loop panics on it first. *)
Lemma complex_key_panics_before_reserved_key :
  ~ reservedKeyAlwaysFatal Sample.sampleEnv.
Proof.
  intros H.
  destruct (H 6 "hello"
              [VString ("a" ++ DQ ++ "b"); VNil; VString "t"; VNil] 2%nat "t")
    as (ds & key' & HF).
  - exists 1%nat. reflexivity.
  - reflexivity.
  - reflexivity.
  - vm_compute in HF. discriminate HF.
Qed.

Lemma reserved_key_stops_Format_sample :
  exists ds,
    Format Sample.sampleEnv 6 "hello" [VString "a"; VNil; VString "t"; VNil]
    = (ds, Failed (FatalReservedKey "t")).
Proof.
  assert (Hev : Nat.Even 2) by (exists 1%nat; reflexivity).
  destruct (reserved_key_stops_Format Sample.sampleEnv 6 "hello"
              [VString "a"; VNil; VString "t"; VNil] 2 "t"
              Hev eq_refl eq_refl) as (ds & f & HF & _ & _).
  exists ds. rewrite HF. vm_compute in HF. inversion HF. reflexivity.
Defined.

(** ** Keys that need escaping *)

Section ComplexKeys.

Variable E : env.

(** The panic of the key check, raised on [key]. *)
Definition panicsOn (key : string) (f : failure) : Prop :=
  f = PanicKeyComplex key
  \/ exists err, jsonMarshal E key = inr err /\ f = PanicKeyInvalid err.

Lemma keyPanic_panicsOn (key : string) : panicsOn key (keyPanic E key).
Proof.
  unfold panicsOn, keyPanic. destruct (jsonMarshal E key) as [b|err]; eauto.
Qed.

Lemma validate_complex (ks : list (nat * goval)) (ds : list diag)
    (key : string) :
  validate E ks = (ds, Some (PanicKeyComplex key)) -> roundTrips E key = false.
Proof.
  intros H. destruct (validate_stop _ _ _ _ H) as (i & k & _ & Hstop).
  destruct (checkKey_stop _ _ _ _ Hstop) as (key0 & -> & [[_ Hf]|(_ & Hrt & Hf)]).
  - discriminate.
  - unfold keyPanic in Hf. destruct (jsonMarshal E key0); inversion Hf.
    now subst.
Qed.

Lemma validate_failure_kind (ks : list (nat * goval)) (ds : list diag)
    (f : failure) :
  validate E ks = (ds, Some f) -> isValidationFailure f.
Proof.
  intros H. destruct (validate_stop _ _ _ _ H) as (i & k & _ & Hstop).
  destruct (checkKey_stop _ _ _ _ Hstop) as (key & _ & [[_ ->]|(_ & _ & ->)]).
  - exact I.
  - apply keyPanic_kind.
Qed.

(** C8.  Take a key that is a string and not reserved, at an even
    position.  If its JSON encoding is not the key between double
    quotes, [Format] does not render: the validation loop fails, and it
    fails with the panic on this key whenever the keys before it pass.
    Conversely [Format] panics on a key only if the encoding of that key
    is not the key between double quotes: a key that round-trips
    unchanged never triggers the panic, wherever it stands. *)
Theorem key_panics_iff_not_round_trip (level : Z) (msg : string)
    (pre rest : list goval) (key : string) :
  Nat.Even (List.length pre) ->
  reserved E key = false ->
  (jsonMarshal E key <> inl (DQ ++ key ++ DQ) ->
   exists ds f,
     Format E level msg (pre ++ VString key :: rest) = (ds, Failed f)
     /\ isValidationFailure f
     /\ (forall ds0, validate E (keysFrom 0 pre) = (ds0, None) ->
         ds = ds0 /\ panicsOn key f))
  /\ (forall level' msg' args ds f,
        Format E level' msg' args = (ds, Failed f) -> panicsOn key f ->
        jsonMarshal E key <> inl (DQ ++ key ++ DQ)).
Proof.
  intros Hev Hres. split.
  - intros Hrt.
    assert (Hno : roundTrips E key = false).
    { destruct (roundTrips E key) eqn:Hr; [|reflexivity].
      apply roundTrips_spec in Hr. contradiction. }
    unfold Format. rewrite keysFrom_app, validate_app by assumption.
    destruct (validate E (keysFrom 0 pre)) as [ds1 [f1|]] eqn:Hpre.
    + exists ds1, f1. split; [reflexivity|]. split.
      * eapply validate_failure_kind. exact Hpre.
      * intros ds0 H0. discriminate H0.
    + simpl keysFrom. simpl validate.
      rewrite checkKey_string, Hres, Hno, app_nil_r.
      exists ds1, (keyPanic E key). split; [reflexivity|]. split.
      * apply keyPanic_kind.
      * intros ds0 H0. inversion H0. split; [reflexivity|].
        apply keyPanic_panicsOn.
  - intros level' msg' args ds f HF Hp Hrt.
    destruct Hp as [->|(err & Herr & _)]; [|congruence].
    apply roundTrips_spec in Hrt. unfold Format in HF.
    destruct (validate E (keysFrom 0 args)) as [ds' [f'|]] eqn:Hv.
    + inversion HF; subst. apply validate_complex in Hv. congruence.
    + inversion HF as [[Hds Hr]]. apply render_failure in Hr as [what Hw].
      discriminate.
Qed.

End ComplexKeys.

(** The sample encoder: a key with a double quote in it needs escaping
    and [Format] panics on it; the key [size] does not. *)
Lemma key_panics_iff_not_round_trip_sample :
  exists ds f,
    Format Sample.sampleEnv 6 "hello"
      [VString "size"; VOther "3"; VString ("a" ++ DQ ++ "b"); VNil]
    = (ds, Failed f)
    /\ panicsOn Sample.sampleEnv ("a" ++ DQ ++ "b") f.
Proof.
  assert (Hev2 : Nat.Even 2) by (exists 1%nat; reflexivity).
  destruct (key_panics_iff_not_round_trip Sample.sampleEnv 6 "hello"
              [VString "size"; VOther "3"] [VNil] ("a" ++ DQ ++ "b")
              Hev2 eq_refl) as [Hif _].
  destruct Hif as (ds & f & HF & _ & Hreach).
  - vm_compute. discriminate.
  - exists ds, f. split; [exact HF|].
    exact (proj2 (Hreach [] eq_refl)).
Defined.

(** ** Error values as fields *)

Section ErrorFields.

Variable E : env.

(** C9.  A value that is an error never reaches the generic writer:
    whatever colour [set] is given, it calls [offset] with the error
    colour on the error's message, a line break and its stack, as one
    value.  So does the loop over the user fields; and in the record of
    a call with one such field the writes are, in order, the timestamp,
    the level, the logger name, the message, and the field with that
    block. *)
Theorem error_field_written_as_block :
  (forall key value color,
     asError value <> None ->
     set E key value color =
       offset E (Error (theme E)) key
         (fst (errorsWrap E value) ++ LF ++ snd (errorsWrap E value)))
  /\ (forall msg stack, errorsWrap E (VErrorsError msg stack) = (msg, stack))
  /\ (forall entry key order st emsg stack,
        reserved E key = false ->
        entryAt entry key = VErrorsError emsg stack ->
        writeFields E entry (key :: order) st =
          writeFields E entry order
            (offset E (Error (theme E)) key (emsg ++ LF ++ stack) st))
  /\ (forall level msg key v t l emsg stack,
        reserved E key = false -> roundTrips E key = true ->
        let entry := LogEntry E level msg [VString key; v] in
        entryAt entry (timeKey E) = VString t ->
        entryAt entry (levelKey E) = VString l ->
        entryAt entry key = VErrorsError emsg stack ->
        let context := fst (getLevelContext E level) in
        let color := snd (getLevelContext E level) in
        Format E level msg [VString key; v] =
          ([], Rendered (buf
             ((setCol 0 >>
               bufWrite (Misc (theme E)) >> writeString t >>
               bufWrite (ansiReset E) >>
               set E "" (VString l) color >>
               set E "" (entryAt entry (nameKey E)) (Misc (theme E)) >>
               set E "" (entryAt entry (messageKey E)) color >>
               offset E (Error (theme E)) key (emsg ++ LF ++ stack) >>
               writeContext E context color)
              {| col := 0; buf := [] |})))).
Proof.
  assert (Hfields : forall entry key order st emsg stack,
        reserved E key = false ->
        entryAt entry key = VErrorsError emsg stack ->
        writeFields E entry (key :: order) st =
          writeFields E entry order
            (offset E (Error (theme E)) key (emsg ++ LF ++ stack) st)).
  { intros entry key order st emsg stack Hres Hval. simpl.
    unfold reserved in Hres. rewrite Hres, Hval. reflexivity. }
  repeat split.
  - intros key value color Herr.
    destruct value; simpl in Herr; try contradiction; reflexivity.
  - exact Hfields.
  - intros level msg key v t l emsg stack Hres Hrt entry Ht Hl Hv context color.
    unfold Format. simpl keysFrom. simpl validate.
    rewrite checkKey_string, Hres, Hrt.
    unfold render, writeRecord. fold entry. rewrite Ht, Hl.
    subst context color. destruct (getLevelContext E level) as [context color].
    change (orderOf E [VString key; v]) with [key].
    rewrite (Hfields _ _ _ _ _ _ Hres Hv). reflexivity.
Qed.

End ErrorFields.

(** The record of [Error("db failed", "err", someError)] in the sample
    environment, [someError] saying [conn refused]. *)
Lemma error_field_written_as_block_sample :
  exists out,
    Format Sample.sampleEnv 3 "db failed"
      [VString "err"; VErrorsError "conn refused" ("main.go:20" ++ LF ++ "main.go:30")]
    = ([], Rendered out)
    /\ trackedOf out =
         ["12:00:00.000000"; " "; "ERR"; " "; "app"; " "; "db failed";
          " "; "err"; ": "; "conn refused" ++ LF ++ "main.go:20" ++ LF ++ "main.go:30"].
Proof.
  eexists. split.
  - apply (proj2 (proj2 (proj2 (error_field_written_as_block Sample.sampleEnv)))
             3 "db failed" "err"
             (VErrorsError "conn refused" ("main.go:20" ++ LF ++ "main.go:30"))
             "12:00:00.000000" "ERR" "conn refused"
             ("main.go:20" ++ LF ++ "main.go:30"));
      reflexivity.
  - vm_compute. reflexivity.
Defined.

(** ** The end of a record *)

(** A string that ends, and not with a line break. *)
Definition endsPlain (s : string) : Prop :=
  exists c, lastByte s = Some c /\ c <> "010"%char.

(** A string that ends with a line break, and with one only. *)
Definition oneTrailingBreak (s : string) : Prop :=
  exists body, s = body ++ LF /\ endsWithLF body = false.

Lemma endsPlain_nonempty (s : string) : endsPlain s -> s <> "".
Proof. intros (c & Hc & _) ->. discriminate. Qed.

Lemma endsPlain_app_r (a b : string) : endsPlain b -> endsPlain (a ++ b).
Proof.
  intros Hb. pose proof (endsPlain_nonempty _ Hb) as Hne.
  destruct Hb as (c & Hc & Hn). exists c.
  now rewrite lastByte_app_nonempty.
Qed.

Lemma endsPlain_not_LF (s : string) : endsPlain s -> endsWithLF s = false.
Proof.
  intros (c & Hc & Hn). unfold endsWithLF. rewrite Hc.
  now apply Ascii.eqb_neq.
Qed.

Lemma oneTrailingBreak_last (s : string) :
  oneTrailingBreak s -> lastByte s = Some "010"%char.
Proof. intros (body & -> & _). apply lastByte_snoc. Qed.

Lemma lastByte_None (s : string) : lastByte s = None -> s = "".
Proof.
  induction s as [|a s IH]; [reflexivity|].
  simpl. destruct s as [|b s]; [discriminate|].
  intros H. apply IH in H. discriminate H.
Qed.

Lemma trimmed_endsPlain (value : string) :
  strings.Trim value (LF ++ " ") <> "" ->
  endsPlain (strings.Trim value (LF ++ " ")).
Proof.
  intros Hne. pose proof (TrimRight_last (strings.TrimLeft value (LF ++ " ")) (LF ++ " ")) as Hl.
  fold (strings.Trim value (LF ++ " ")) in Hl.
  destruct (lastByte (strings.Trim value (LF ++ " "))) as [c|] eqn:Hc.
  - exists c. split; [exact Hc|]. intros ->. simpl in Hl. discriminate.
  - apply lastByte_None in Hc. contradiction.
Qed.

Section RecordEnd.

Variable E : env.

Hypothesis separator_plain : endsPlain (Separator E).
Hypothesis reset_plain : endsPlain (ansiReset E).

(** The bytes [offset] leaves behind, once the wrapping is decided. *)
Lemma bytes_writeField (color key val : string) (st : state) :
  bytes (buf (writeField E color key val st)) =
    bytes (buf st) ++ Separator E
    ++ (if isEmpty key then ""
        else Key (theme E) ++ key ++ assignmentChar ++ ansiReset E)
    ++ (if isEmpty color then "" else color)
    ++ val
    ++ (if isEmpty color then "" else ansiReset E).
Proof.
  unfold writeField, writeKey, when_, seq, skip.
  destruct (isEmpty key); destruct (isEmpty color);
    unfold bufWrite, writeString; simpl;
    rewrite !bytes_app; simpl;
    rewrite ?append_assoc, ?append_empty_r; reflexivity.
Qed.

Lemma endsPlain_writeField (color key value : string) (st : state) :
  endsPlain
    (bytes (buf (writeField E color key (strings.Trim value (LF ++ " ")) st))).
Proof.
  rewrite bytes_writeField.
  pose proof (trimmed_endsPlain value) as Htrim.
  set (val := strings.Trim value (LF ++ " ")) in *.
  destruct (isEmpty val) eqn:Hval.
  - apply isEmpty_true in Hval. rewrite Hval.
    destruct (isEmpty color); destruct (isEmpty key);
      rewrite ?append_empty_l, ?append_empty_r;
      repeat apply endsPlain_app_r; assumption.
  - apply isEmpty_false in Hval. specialize (Htrim Hval).
    destruct (isEmpty color); destruct (isEmpty key);
      rewrite ?append_empty_l, ?append_empty_r;
      repeat apply endsPlain_app_r; assumption.
Qed.

Lemma endsPlain_offset (color key value : string) (st : state) :
  endsPlain (bytes (buf (offset E color key value st))).
Proof. rewrite offset_unfold. apply endsPlain_writeField. Qed.

Lemma endsPlain_set (key : string) (value : goval) (color : string)
    (st : state) :
  endsPlain (bytes (buf (set E key value color st))).
Proof.
  destruct (set_cases E key value color) as [-> | (m & s & ->)];
    apply endsPlain_offset.
Qed.

Lemma endsPlain_writeFields (entry : gmap string goval)
    (order : list string) (st st' : state) :
  writeFields E entry order st = inl st' ->
  endsPlain (bytes (buf st)) -> endsPlain (bytes (buf st')).
Proof.
  revert st. induction order as [|key order IH]; intros st Hw Hst; simpl in Hw.
  - now inversion Hw; subst.
  - destruct (existsb (String.eqb key) (reservedKeys E)).
    + eauto.
    + eapply IH; [exact Hw | apply endsPlain_set].
Qed.

(** The bytes [writeContext] adds. *)
Lemma bytes_writeContext (context color : string) (st : state) :
  bytes (buf (writeContext E context color st)) =
    if isEmpty context then bytes (buf st) ++ LF
    else if endsWithLF context
    then (bytes (buf st) ++ LF ++ color) ++ context ++ ansiReset E
    else (bytes (buf st) ++ LF ++ color ++ context ++ ansiReset E) ++ LF.
Proof.
  unfold writeContext, when_, seq, skip, bufWrite.
  destruct (isEmpty context); destruct (endsWithLF context);
    cbn [negb buf col]; rewrite !bytes_snoc, ?append_assoc; reflexivity.
Qed.

End RecordEnd.

Section FormatEnds.

Variable E : env.

(** A key that passes the validation loop. *)
Definition keyOk (k : goval) : Prop :=
  match k with
  | VString key => reserved E key = false /\ roundTrips E key = true
  | _ => True
  end.

(** An argument list with no reserved key and no key that needs
    escaping. *)
Definition validArgs (args : list goval) : Prop :=
  Forall (fun ik => keyOk (snd ik)) (keysFrom 0 args).

(** The canonical entry has a string for the timestamp and for the
    level. *)
Definition entryOk (level : Z) (msg : string) (args : list goval) : Prop :=
  exists t l,
    entryAt (LogEntry E level msg args) (timeKey E) = VString t
    /\ entryAt (LogEntry E level msg args) (levelKey E) = VString l.

Lemma validate_passes (ks : list (nat * goval)) :
  Forall (fun ik => keyOk (snd ik)) ks -> exists ds, validate E ks = (ds, None).
Proof.
  induction ks as [|[i k] ks IH]; intros Hall.
  - now exists [].
  - apply Forall_cons in Hall as [Hk Hall]. simpl in Hk.
    destruct (IH Hall) as [ds Hds]. simpl.
    destruct k as [|key|m|m s|r]; simpl; rewrite ?Hds; eauto.
    destruct Hk as [Hres Hrt]. rewrite checkKey_string, Hres, Hrt. eauto.
Qed.

Lemma getLevelContext_default (level : Z) :
  level <> LevelDebug E -> level <> LevelInfo E -> level <> LevelWarn E ->
  getLevelContext E level =
    (lines (resolvable E (drop 3 (stackTrace E))), Error (theme E)).
Proof.
  intros H1 H2 H3. unfold getLevelContext.
  rewrite !(proj2 (Z.eqb_neq _ _)) by assumption.
  now rewrite errorLoop_skips, errorLoop_collects by lia.
Qed.

Lemma lines_last (l : list string) :
  l <> [] -> exists x, lines l = x ++ LF.
Proof.
  induction l as [|s l IH]; intros Hne; [contradiction|].
  destruct l as [|s' l].
  - exists s. unfold LF. simpl. reflexivity.
  - destruct IH as [x Hx]; [discriminate|].
    exists (s ++ LF ++ x).
    change (lines (s :: s' :: l)) with (s ++ LF ++ lines (s' :: l)).
    rewrite Hx, !append_assoc. reflexivity.
Qed.

Lemma lines_end (l : list string) : l <> [] -> endsWithLF (lines l) = true.
Proof.
  intros Hne. destruct (lines_last l Hne) as [x ->].
  unfold endsWithLF, LF. rewrite lastByte_snoc. reflexivity.
Qed.

(** The claim as it is worded. *)
Definition alwaysOneTrailingBreak : Prop :=
  forall level msg args,
    Nat.Even (List.length args) -> validArgs args -> entryOk level msg args ->
    exists ds out,
      Format E level msg args = (ds, Rendered out)
      /\ oneTrailingBreak (bytes out).

(** C1, amended.  For every argument list without a reserved key and
    without a key that needs escaping, of even length or not, and an
    entry whose timestamp and level are strings, [Format] renders.  The
    bytes end with one line break and one only, save when the call-site
    context is not empty and ends with a line break itself: then they end
    with the context followed by the reset sequence, and no line break
    comes after it.  A context of the error path that is not empty
    always ends with a line break.  The separator and the reset sequence
    are taken to end with something other than a line break. *)
Theorem Format_ends_with_line_break (level : Z) (msg : string)
    (args : list goval) :
  endsPlain (Separator E) -> endsPlain (ansiReset E) ->
  validArgs args -> entryOk level msg args ->
  (exists ds out,
     Format E level msg args = (ds, Rendered out)
     /\ let context := fst (getLevelContext E level) in
        if isEmpty context || negb (endsWithLF context)
        then oneTrailingBreak (bytes out)
        else exists body, bytes out = body ++ context ++ ansiReset E)
  /\ (level <> LevelDebug E -> level <> LevelInfo E -> level <> LevelWarn E ->
      let context := fst (getLevelContext E level) in
      context <> "" -> endsWithLF context = true).
Proof.
  intros Hsep Hreset Hvalid (t & l & Ht & Hl). split.
  - destruct (validate_passes _ Hvalid) as [ds Hds].
    unfold Format. rewrite Hds. unfold render, writeRecord. rewrite Ht, Hl.
    destruct (getLevelContext E level) as [context color]. cbn [fst].
    match goal with
    | |- context [writeFields E ?en ?o ?s] =>
        destruct (writeFields E en o s) as [st|f] eqn:Hw;
          [ assert (Hst : endsPlain (bytes (buf st)))
              by (eapply endsPlain_writeFields;
                  [exact Hsep | exact Hreset | exact Hw
                  | unfold seq; now apply endsPlain_set])
          | destruct (writeFields_total E en o s) as [st' Hst']; congruence ]
    end.
    exists ds, (buf (writeContext E context color st)).
    split; [reflexivity|].
    rewrite bytes_writeContext.
    destruct (isEmpty context) eqn:Hempty; cbn [orb negb].
    + exists (bytes (buf st)). split; [reflexivity|].
      now apply endsPlain_not_LF.
    + destruct (endsWithLF context); cbn [orb negb].
      * now eexists.
      * eexists. split; [reflexivity|].
        apply endsPlain_not_LF. repeat apply endsPlain_app_r. exact Hreset.
  - intros H1 H2 H3. rewrite getLevelContext_default by assumption.
    cbn [fst]. intros Hne. apply lines_end. intros Hnil.
    rewrite Hnil in Hne. now apply Hne.
Qed.

End FormatEnds.

(** C1, counterexample.  [Error("db failed")] in the sample environment:
    the arguments are valid and the record is rendered, but its last
    byte is the [m] that closes the reset sequence, the line break
    standing before that sequence. *)
Lemma error_record_ends_with_reset :
  ~ alwaysOneTrailingBreak Sample.sampleEnv.
Proof.
  intros H.
  destruct (H 3 "db failed" []) as (ds & out & HF & Hone).
  - exists 0%nat. reflexivity.
  - constructor.
  - exists "12:00:00.000000", "ERR". split; reflexivity.
  - apply oneTrailingBreak_last in Hone.
    vm_compute in HF. inversion HF; subst out.
    vm_compute in Hone. discriminate Hone.
Qed.

(** The amended statement in the sample environment: a debug record
    ends with one line break, an error record with the context and the
    reset sequence. *)
Lemma Format_ends_with_line_break_sample :
  (exists ds out,
     Format Sample.sampleEnv 7 "ok" [VString "a"; VString "apple"] = (ds, Rendered out)
     /\ oneTrailingBreak (bytes out))
  /\ (exists ds out body,
        Format Sample.sampleEnv 3 "db failed" [] = (ds, Rendered out)
        /\ bytes out =
             body ++ fst (getLevelContext Sample.sampleEnv 3) ++ Sample.Reset).
Proof.
  assert (Hsep : endsPlain (Separator Sample.sampleEnv)).
  { exists " "%char. split; [reflexivity | discriminate]. }
  assert (Hreset : endsPlain (ansiReset Sample.sampleEnv)).
  { exists "m"%char. split; [reflexivity | discriminate]. }
  split.
  - destruct (Format_ends_with_line_break Sample.sampleEnv 7 "ok"
                [VString "a"; VString "apple"] Hsep Hreset) as [Hout _].
    + repeat constructor.
    + exists "12:00:00.000000", "DBG". split; reflexivity.
    + destruct Hout as (ds & out & HF & Hend). exists ds, out.
      split; [exact HF | exact Hend].
  - destruct (Format_ends_with_line_break Sample.sampleEnv 3 "db failed"
                [] Hsep Hreset) as [Hout _].
    + constructor.
    + exists "12:00:00.000000", "ERR". split; reflexivity.
    + destruct Hout as (ds & out & HF & body & Hend). exists ds, out, body.
      split; [exact HF | exact Hend].
Defined.

(** * Further properties *)

(** ** Splitting on a one-byte separator *)

(** [s] holds no byte [d]. *)
Fixpoint noByte (d : ascii) (s : string) : bool :=
  match s with
  | "" => true
  | String c s' => negb (Ascii.eqb c d) && noByte d s'
  end.

Lemma splitScan_head (d c : ascii) (s cur : string) :
  strings.splitScan (String c s) (String d "") cur 0 =
    if Ascii.eqb c d
    then cur :: strings.splitScan s (String d "") "" 0
    else strings.splitScan s (String d "") (cur ++ String c "") 0.
Proof.
  simpl. rewrite (eqb_sym d c).
  destruct (Ascii.eqb c d); destruct s; reflexivity.
Qed.

Lemma splitScan_app (d : ascii) (a b cur : string) :
  strings.splitScan (a ++ String d b) (String d "") cur 0 =
    (strings.splitScan a (String d "") cur 0
     ++ strings.splitScan b (String d "") "" 0)%list.
Proof.
  revert cur. induction a as [|c a IH]; intros cur.
  - change ("" ++ String d b) with (String d b).
    rewrite splitScan_head, Ascii.eqb_refl. reflexivity.
  - change (String c a ++ String d b) with (String c (a ++ String d b)).
    rewrite !splitScan_head. destruct (Ascii.eqb c d); rewrite IH; reflexivity.
Qed.

Lemma splitScan_noByte (d : ascii) (s cur : string) :
  noByte d s = true ->
  strings.splitScan s (String d "") cur 0 = [cur ++ s].
Proof.
  revert cur. induction s as [|c s IH]; intros cur Hs.
  - simpl. now rewrite append_empty_r.
  - simpl in Hs. apply andb_prop in Hs as [Hc Hs].
    rewrite splitScan_head. apply negb_true_iff in Hc. rewrite Hc.
    rewrite IH by assumption. now rewrite append_assoc.
Qed.

Lemma Split_app (d : ascii) (a b : string) :
  strings.Split (a ++ String d b) (String d "") =
    (strings.Split a (String d "") ++ strings.Split b (String d ""))%list.
Proof. unfold strings.Split. simpl isEmpty. cbv iota. apply splitScan_app. Qed.

Lemma Split_noByte (d : ascii) (s : string) :
  noByte d s = true -> strings.Split s (String d "") = [s].
Proof.
  intros Hs. unfold strings.Split. simpl isEmpty. cbv iota.
  now rewrite splitScan_noByte.
Qed.

Lemma splitScan_nonempty (s sep cur : string) (n : nat) :
  strings.splitScan s sep cur n <> [].
Proof.
  revert cur n. induction s as [|c s IH]; intros cur n.
  - discriminate.
  - destruct n as [|k].
    + change (strings.splitScan (String c s) sep cur 0) with
        (if strings.hasPrefix (String c s) sep
         then cur :: strings.splitScan s sep "" (String.length sep - 1)
         else strings.splitScan s sep (cur ++ String c "") 0).
      destruct (strings.hasPrefix (String c s) sep); [discriminate | apply IH].
    + change (strings.splitScan (String c s) sep cur (S k)) with
        (strings.splitScan s sep cur k).
      apply IH.
Qed.

(** ** The list of pairs *)

(** The body of the loop of [parseKVList]. *)
Definition addPair (m : gmap string string) (pair : string)
    : gmap string string :=
  if isEmpty pair then m
  else
    match strings.Split pair "=" with
    | [k] => <[k := ""]> m
    | [k; v] => <[k := v]> m
    | _ => m
    end.

Lemma parseKVList_fold (s separator : string) :
  parseKVList s separator = fold_left addPair (strings.Split s separator) ∅.
Proof. reflexivity. Qed.

Lemma noByte_cons (d c : ascii) (s : string) :
  noByte d (String c s) = negb (Ascii.eqb c d) && noByte d s.
Proof. reflexivity. Qed.

Lemma noByte_app (d : ascii) (a b : string) :
  noByte d (a ++ b) = noByte d a && noByte d b.
Proof.
  induction a as [|c a IH]; simpl; [reflexivity|].
  now rewrite IH, andb_assoc.
Qed.

(** One more pair at the end of the list. *)
Lemma parseKVList_snoc (d : ascii) (s pair : string) :
  noByte d pair = true ->
  parseKVList (s ++ String d pair) (String d "")
  = addPair (parseKVList s (String d "")) pair.
Proof.
  intros Hp. rewrite !parseKVList_fold, Split_app, fold_left_app.
  now rewrite (Split_noByte d pair Hp).
Qed.

Lemma addPair_assign (m : gmap string string) (k v : string) :
  noByte "=" k = true -> noByte "=" v = true ->
  addPair m (k ++ "=" ++ v) = <[k := v]> m.
Proof.
  intros Hk Hv. unfold addPair.
  change (k ++ "=" ++ v) with (k ++ String "=" v).
  assert (He : isEmpty (k ++ String "=" v) = false).
  { apply isEmpty_false. destruct k; discriminate. }
  rewrite He, Split_app, !Split_noByte by assumption. reflexivity.
Qed.

Lemma addPair_bare (m : gmap string string) (name : string) :
  name <> "" -> noByte "=" name = true ->
  addPair m name = <[name := ""]> m.
Proof.
  intros Hne Hn. unfold addPair.
  apply isEmpty_false in Hne. rewrite Hne, Split_noByte by assumption.
  reflexivity.
Qed.

Lemma addPair_long (m : gmap string string) (a b c : string) :
  noByte "=" a = true -> noByte "=" b = true ->
  addPair m (a ++ "=" ++ b ++ "=" ++ c) = m.
Proof.
  intros Ha Hb. unfold addPair.
  change (a ++ "=" ++ b ++ "=" ++ c) with (a ++ String "=" (b ++ String "=" c)).
  destruct (isEmpty _); [reflexivity|].
  rewrite !Split_app, !Split_noByte by assumption.
  destruct (strings.Split c "=") as [|x l] eqn:Hc; [|reflexivity].
  exfalso. revert Hc. unfold strings.Split. simpl isEmpty. cbv iota.
  apply splitScan_nonempty.
Qed.

(** X1.  A pair [k=v] appended to a list of pairs assigns [v] to [k] in
    the map parsed from the list, replacing what an earlier pair gave
    to [k]; it is then what a lookup of [k] finds. *)
Theorem parseKVList_last_wins (d : ascii) (s k v : string) :
  noByte d k = true -> noByte d v = true -> d <> "="%char ->
  noByte "=" k = true -> noByte "=" v = true ->
  parseKVList (s ++ String d (k ++ "=" ++ v)) (String d "")
    = <[k := v]> (parseKVList s (String d ""))
  /\ parseKVList (s ++ String d (k ++ "=" ++ v)) (String d "") !! k = Some v.
Proof.
  intros Hdk Hdv Hd Hk Hv.
  assert (Heq : parseKVList (s ++ String d (k ++ "=" ++ v)) (String d "")
                = <[k := v]> (parseKVList s (String d ""))).
  { assert (Hne : Ascii.eqb "=" d = false).
    { apply eqb_neq. congruence. }
    assert (Hp : noByte d (k ++ "=" ++ v) = true).
    { change (k ++ "=" ++ v) with (k ++ String "=" v).
      now rewrite noByte_app, noByte_cons, Hdk, Hdv, Hne. }
    rewrite (parseKVList_snoc d s _ Hp). now apply addPair_assign. }
  split; [exact Heq|]. rewrite Heq. apply lookup_insert_eq.
Qed.

Lemma parseKVList_last_wins_sample :
  parseKVList "key=red,key=blue" "," !! "key" = Some "blue".
Proof.
  apply (parseKVList_last_wins "," "key=red" "key" "blue");
    reflexivity || discriminate.
Defined.

(** X2.  A bare name appended to a list of pairs is recorded with the
    empty style, replacing an earlier style of that name. *)
Theorem parseKVList_bare_name (d : ascii) (s name : string) :
  name <> "" -> noByte d name = true -> noByte "=" name = true ->
  parseKVList (s ++ String d name) (String d "")
    = <[name := ""]> (parseKVList s (String d "")).
Proof.
  intros Hne Hd Hn. now rewrite parseKVList_snoc, addPair_bare.
Qed.

Lemma parseKVList_bare_name_sample :
  parseKVList "value=red,value" "," !! "value" = Some "".
Proof.
  assert (Hne : "value" <> "") by discriminate.
  pose proof (parseKVList_bare_name "," "value=red" "value" Hne eq_refl eq_refl)
    as H.
  change (parseKVList "value=red,value" ","
          = <["value" := ""]> (parseKVList "value=red" ",")) in H.
  rewrite H. apply lookup_insert_eq.
Defined.

(** X3.  Empty pairs and pairs with more than one [=] leave no entry:
    the empty string parses to the empty map, a separator at the end
    changes nothing, and a pair [a=b=c] is dropped. *)
Theorem parseKVList_ignores_malformed (d : ascii) (s a b c : string) :
  noByte d a = true -> noByte d b = true -> noByte d c = true ->
  d <> "="%char ->
  noByte "=" a = true -> noByte "=" b = true ->
  parseKVList "" (String d "") = ∅
  /\ parseKVList (s ++ String d "") (String d "") = parseKVList s (String d "")
  /\ parseKVList (s ++ String d (a ++ "=" ++ b ++ "=" ++ c)) (String d "")
     = parseKVList s (String d "").
Proof.
  intros Hda Hdb Hdc Hd Ha Hb. split; [reflexivity|]. split.
  - now rewrite parseKVList_snoc.
  - assert (Hne : Ascii.eqb "=" d = false).
    { apply eqb_neq. congruence. }
    assert (Hp : noByte d (a ++ "=" ++ b ++ "=" ++ c) = true).
    { change (a ++ "=" ++ b ++ "=" ++ c)
        with (a ++ String "=" (b ++ String "=" c)).
      now rewrite noByte_app, noByte_cons, noByte_app, noByte_cons,
        Hda, Hdb, Hdc, Hne. }
    rewrite (parseKVList_snoc d s _ Hp). now apply addPair_long.
Qed.

Lemma parseKVList_ignores_malformed_sample :
  parseKVList ("key=red" ++ ",") "," = parseKVList "key=red" ","
  /\ parseKVList ("key=red" ++ "," ++ "a=b=c=d") "," = parseKVList "key=red" ",".
Proof.
  destruct (parseKVList_ignores_malformed "," "key=red" "a" "b" "c=d")
    as (_ & H1 & H2); try reflexivity; try discriminate.
  split; [exact H1 | exact H2].
Defined.

(** ** Themes: what a specification can change *)

(** The theme [parseTheme] makes of the parsed pairs. *)
Definition themeOfMap (E : env) (m : gmap string string) : colorScheme :=
  let wildcard := ansiColorCode E (styleOf m "*") in
  let slot name :=
    if isEmpty (ansiColorCode E (styleOf m name)) then wildcard
    else ansiColorCode E (styleOf m name) in
  {| Key := slot "key"; Value := slot "value"; Misc := slot "misc";
     Source := slot "source"; Debug := slot "DBG"; Info := slot "INF";
     Warn := slot "WRN"; Error := slot "ERR" |}.

Lemma parseTheme_themeOfMap (E : env) (spec : string) :
  parseTheme E spec = themeOfMap E (parseKVList spec ",").
Proof.
  unfold parseTheme, themeOfMap.
  set (m := parseKVList spec ",").
  rewrite themeColor_wildcard.
  destruct (negb (String.eqb _ (ansiReset E))); reflexivity.
Qed.

(** The names [parseTheme] looks up. *)
Definition themeNames : list string :=
  ["*"; "key"; "value"; "misc"; "source"; "DBG"; "WRN"; "INF"; "ERR"].

Lemma themeOfMap_insert (E : env) (m : gmap string string) (name style : string) :
  ~ In name themeNames ->
  themeOfMap E (<[name := style]> m) = themeOfMap E m.
Proof.
  intros Hn. unfold themeOfMap, styleOf.
  assert (Hl : forall n, In n themeNames ->
                 <[name := style]> m !! n = m !! n).
  { intros n Hin. apply lookup_insert_ne. intros ->. contradiction. }
  rewrite !Hl by (unfold themeNames; simpl; tauto). reflexivity.
Qed.

(** X4.  A pair whose name is not the wildcard nor one of the eight
    slot names, with or without a style, changes nothing in the theme. *)
Theorem parseTheme_ignores_unknown_names (E : env) (spec name style : string) :
  ~ In name themeNames -> name <> "" ->
  noByte "," name = true -> noByte "=" name = true ->
  noByte "," style = true -> noByte "=" style = true ->
  parseTheme E (spec ++ "," ++ name ++ "=" ++ style) = parseTheme E spec
  /\ parseTheme E (spec ++ "," ++ name) = parseTheme E spec.
Proof.
  intros Hn Hne Hcn Hen Hcs Hes.
  rewrite !parseTheme_themeOfMap. split.
  - change (spec ++ "," ++ name ++ "=" ++ style)
      with (spec ++ String "," (name ++ String "=" style)).
    rewrite parseKVList_snoc.
    + change (name ++ String "=" style) with (name ++ "=" ++ style).
      rewrite addPair_assign by assumption. now apply themeOfMap_insert.
    + now rewrite noByte_app, noByte_cons, Hcn, Hcs.
  - change (spec ++ "," ++ name) with (spec ++ String "," name).
    rewrite parseKVList_snoc, addPair_bare by assumption.
    now apply themeOfMap_insert.
Qed.

Lemma parseTheme_ignores_unknown_names_sample :
  parseTheme Sample.sampleEnv ("key=red" ++ "," ++ "t" ++ "=" ++ "15:04:05")
  = parseTheme Sample.sampleEnv "key=red".
Proof.
  apply (parseTheme_ignores_unknown_names Sample.sampleEnv "key=red" "t"
           "15:04:05"); try reflexivity; try discriminate.
  unfold themeNames. simpl. intros H.
  repeat (destruct H as [H|H]; [discriminate H|]). exact H.
Defined.

(** X5.  [parseTheme] reads nothing of its surroundings but the
    resolver: the test of the wildcard against [ansi.Reset] only guards
    assignments that are all overwritten, so two environments with the
    same resolver give the same theme whatever their reset sequences;
    and a wildcard is the fallback of a slot even when it resolves to the
    reset sequence. *)
Theorem parseTheme_reads_only_the_resolver (E1 E2 : env) (spec : string) :
  (forall style, ansiColorCode E1 style = ansiColorCode E2 style) ->
  parseTheme E1 spec = parseTheme E2 spec
  /\ (ansiColorCode E1 (styleOf (parseKVList spec ",") "*") = ansiReset E1 ->
      ansiColorCode E1 (styleOf (parseKVList spec ",") "value") = "" ->
      Value (parseTheme E1 spec) = ansiReset E1).
Proof.
  intros Hres. rewrite !parseTheme_themeOfMap. split.
  - unfold themeOfMap. now rewrite !Hres.
  - intros Hw Hv. simpl. now rewrite Hv, Hw.
Qed.

Lemma parseTheme_reads_only_the_resolver_sample :
  parseTheme Sample.sampleEnv "*=reset,key=red"
    = parseTheme (withTheme Sample.sampleEnv (parseTheme Sample.sampleEnv ""))
        "*=reset,key=red"
  /\ Value (parseTheme Sample.sampleEnv "*=reset,key=red") = Sample.Reset.
Proof.
  destruct (parseTheme_reads_only_the_resolver Sample.sampleEnv
              (withTheme Sample.sampleEnv (parseTheme Sample.sampleEnv ""))
              "*=reset,key=red") as [H1 H2].
  - reflexivity.
  - split; [exact H1 | apply H2; reflexivity].
Defined.

(** X6.  The empty specification, with a resolver that gives nothing for
    the empty style: every slot of the theme is empty, the formatter
    writes no colour. *)
Theorem parseTheme_empty_spec (E : env) :
  ansiColorCode E "" = "" ->
  parseTheme E "" = mkColorScheme "" "" "" "" "" "" "" "".
Proof.
  intros He. rewrite parseTheme_themeOfMap.
  change (parseKVList "" ",") with (∅ : gmap string string).
  unfold themeOfMap, styleOf. rewrite !lookup_empty. simpl.
  now rewrite He.
Qed.

Lemma parseTheme_empty_spec_sample :
  parseTheme Sample.sampleEnv "" = mkColorScheme "" "" "" "" "" "" "" "".
Proof. apply parseTheme_empty_spec. reflexivity. Defined.

(** ** Values and the space around them *)

Lemma TrimLeft_allIn (s cut : string) :
  allIn cut s = true -> strings.TrimLeft s cut = "".
Proof.
  induction s as [|c s IH]; simpl; [reflexivity|].
  intros H. apply andb_prop in H as [Hc Hs]. rewrite Hc. now apply IH.
Qed.

Lemma TrimRight_allIn (s cut : string) :
  allIn cut s = true -> strings.TrimRight s cut = "".
Proof.
  induction s as [|c s IH]; simpl; [reflexivity|].
  intros H. apply andb_prop in H as [Hc Hs]. now rewrite IH, Hc.
Qed.

Lemma TrimLeft_app_in (l x cut : string) :
  allIn cut l = true -> strings.TrimLeft (l ++ x) cut = strings.TrimLeft x cut.
Proof.
  induction l as [|c l IH]; simpl; [reflexivity|].
  intros H. apply andb_prop in H as [Hc Hl]. rewrite Hc. now apply IH.
Qed.

Lemma TrimRight_app_in (x r cut : string) :
  allIn cut r = true -> strings.TrimRight (x ++ r) cut = strings.TrimRight x cut.
Proof.
  intros Hr. induction x as [|c x IH]; simpl.
  - now apply TrimRight_allIn.
  - now rewrite IH.
Qed.

Lemma Trim_app_l (l x cut : string) :
  allIn cut l = true -> strings.Trim (l ++ x) cut = strings.Trim x cut.
Proof. intros Hl. unfold strings.Trim. now rewrite TrimLeft_app_in. Qed.

Lemma Trim_app_r (x r cut : string) :
  allIn cut r = true -> strings.Trim (x ++ r) cut = strings.Trim x cut.
Proof.
  intros Hr. unfold strings.Trim. induction x as [|c x IH].
  - simpl. now rewrite TrimLeft_allIn.
  - simpl. destruct (inCutset cut c); [exact IH|].
    change (String c (x ++ r)) with (String c x ++ r).
    now apply TrimRight_app_in.
Qed.

(** X7.  Newlines and spaces around a value never show: [offset], and
    [set] on a string, do the same for a value and for that value with
    any run of newlines and spaces put before and after it. *)
Theorem offset_ignores_surrounding_space (E : env)
    (color key l v r : string) :
  allIn (LF ++ " ") l = true -> allIn (LF ++ " ") r = true ->
  offset E color key (l ++ v ++ r) = offset E color key v
  /\ set E key (VString (l ++ v ++ r)) color = set E key (VString v) color.
Proof.
  intros Hl Hr.
  assert (Ht : strings.Trim (l ++ v ++ r) (LF ++ " ")
               = strings.Trim v (LF ++ " ")).
  { now rewrite Trim_app_l, Trim_app_r. }
  assert (Ho : offset E color key (l ++ v ++ r) = offset E color key v).
  { unfold offset. now rewrite Ht. }
  split; [exact Ho|]. exact Ho.
Qed.

Lemma offset_ignores_surrounding_space_sample :
  offset Sample.sampleEnv "" "k" ("  " ++ "apple" ++ (" " ++ LF))
  = offset Sample.sampleEnv "" "k" "apple".
Proof.
  apply (offset_ignores_surrounding_space Sample.sampleEnv "" "k"
           "  " "apple" (" " ++ LF)); reflexivity.
Defined.

(** ** The cursor after a field *)

Section FieldCursor.

Variable E : env.

(** The plain bytes a key takes: the key and the assignment characters,
    nothing for the empty key. *)
Definition keyWidth (key : string) : Z :=
  if isEmpty key then 0 else len key + len assignmentChar.

(** X8.  The cursor after [offset]: from where it stood, or from the
    length of the indent when the field wrapped, it has moved by the
    lengths of the separator, of the key with its two assignment bytes
    (when there is a key) and of the trimmed value; the colours add
    nothing. *)
Theorem offset_cursor (color key value : string) (st : state) :
  let val := strings.Trim value (LF ++ " ") in
  col (offset E color key value st) =
    (if wraps E st key val then len (indent E) else col st)
    + len (Separator E) + keyWidth key + len val.
Proof.
  intros val.
  pose proof (plainView_offset E color key value st) as H.
  apply (f_equal fst) in H. unfold plainView in H. cbn [fst] in H.
  rewrite H. unfold plainOffset, wraps, keyWidth. cbn [fst snd]. fold val.
  destruct (isPretty E && negb (isEmpty key)
            || (col st + len key + 1 + len val >=? maxCol E));
    destruct (isEmpty key); cbn [fst snd]; lia.
Qed.

(** X9.  A field written without wrapping ends less than
    [len(Separator) + 1] columns past [maxCol]: the test of [offset]
    counts one byte for what is written around the key and the value,
    where the separator and the assignment characters are written.  With
    a one-byte separator the line is at most one column too long. *)
Theorem unwrapped_field_overrun (color key value : string) (st : state) :
  wraps E st key (strings.Trim value (LF ++ " ")) = false ->
  col (offset E color key value st) < maxCol E + len (Separator E) + 1.
Proof.
  intros Hw. rewrite offset_unfold.
  pose proof (plainView_offset E color key value st) as H.
  rewrite offset_unfold in H.
  apply (f_equal fst) in H. unfold plainView in H. cbn [fst] in H.
  rewrite H. unfold plainOffset. cbn [fst snd].
  unfold wraps in Hw. rewrite Hw.
  apply orb_false_iff in Hw as [_ Hlt].
  rewrite Z.geb_leb in Hlt. apply Z.leb_gt in Hlt.
  destruct (isEmpty key); cbn [fst snd]; unfold assignmentChar, len in *;
    simpl String.length in *; lia.
Qed.

End FieldCursor.

(** A keyed field that just fits the test: at column 74 the key [k] and
    the value [abc] pass the test for [maxCol = 80], and the field ends at
    column 81. *)
Lemma unwrapped_field_overrun_sample :
  col (offset Sample.sampleEnv "" "k" "abc" {| col := 74; buf := [] |}) = 81
  /\ col (offset Sample.sampleEnv "" "k" "abc" {| col := 74; buf := [] |})
     < maxCol Sample.sampleEnv + len (Separator Sample.sampleEnv) + 1.
Proof.
  split; [reflexivity|].
  apply (unwrapped_field_overrun Sample.sampleEnv "" "k" "abc"
           {| col := 74; buf := [] |}).
  reflexivity.
Defined.

(** ** The bytes of a field *)

Section FieldBytes.

Variable E : env.

(** [keyColor]: a string in the key colour. *)
Definition keyColor (s : string) : string :=
  Key (theme E) ++ s ++ ansiReset E.

(** X10.  The bytes [offset] appends, in order: a line break and the
    indent when the field wraps; the separator; for a key that is not
    empty, the key and the assignment characters coloured as [keyColor]
    colours them; the trimmed value, between the colour and the reset
    sequence when a colour is given.  [writeKey] alone appends the
    separator and the coloured key. *)
Theorem offset_bytes (color key value : string) (st : state) :
  let val := strings.Trim value (LF ++ " ") in
  bytes (buf (offset E color key value st)) =
    bytes (buf st)
    ++ (if wraps E st key val then LF ++ indent E else "")
    ++ Separator E
    ++ (if isEmpty key then "" else keyColor (key ++ assignmentChar))
    ++ (if isEmpty color then val else color ++ val ++ ansiReset E)
  /\ bytes (buf (writeKey E key st)) =
       bytes (buf st) ++ Separator E
       ++ (if isEmpty key then "" else keyColor (key ++ assignmentChar)).
Proof.
  intros val. split.
  - rewrite offset_unfold, bytes_writeField. fold val.
    unfold keyColor, when_, skip, breakLine, seq, bufWrite, setCol, writeString.
    destruct (wraps E st key val); destruct (isEmpty key);
      destruct (isEmpty color); cbn [buf col];
      rewrite ?bytes_snoc; cbn [chunkText];
      rewrite ?append_assoc, ?append_empty_l, ?append_empty_r; reflexivity.
  - unfold writeKey, keyColor, when_, skip, seq, bufWrite, writeString.
    destruct (isEmpty key); cbn [negb buf col];
      rewrite ?bytes_snoc; cbn [chunkText];
      rewrite ?append_assoc, ?append_empty_l, ?append_empty_r; reflexivity.
Qed.

End FieldBytes.

(** ** Levels without a context, and the error context *)

Section ContextFacts.

Variable E : env.

(** X11.  Debug and info records carry no call-site context: for these
    levels [getLevelContext] gives the empty context and the colour of
    the level without looking at the stack, and what [Format] renders is
    the fields followed by a single line break written on its own. *)
Theorem debug_info_no_context (level : Z) (msg : string) (args : list goval) :
  LevelInfo E <> LevelDebug E ->
  level = LevelDebug E \/ level = LevelInfo E ->
  getLevelContext E level =
    ("", if level =? LevelDebug E then Debug (theme E) else Info (theme E))
  /\ forall ds out,
       Format E level msg args = (ds, Rendered out) ->
       exists st cc,
         writeRecord E level msg args = inl (st, cc)
         /\ out = (buf st ++ [Raw LF])%list.
Proof.
  intros Hne Hlevel.
  assert (Hctx : getLevelContext E level =
            ("", if level =? LevelDebug E then Debug (theme E) else Info (theme E))).
  { unfold getLevelContext. destruct Hlevel as [-> | ->].
    - now rewrite Z.eqb_refl.
    - rewrite (proj2 (Z.eqb_neq _ _) Hne), Z.eqb_refl. reflexivity. }
  split; [exact Hctx|].
  intros ds out HF. unfold Format in HF.
  destruct (validate E (keysFrom 0 args)) as [ds' [f|]]; [discriminate|].
  inversion HF as [[Hds Hr]]. clear HF. unfold render in Hr.
  destruct (writeRecord E level msg args) as [[st [context color]]|f] eqn:Hw;
    [|discriminate].
  exists st, (context, color). split; [reflexivity|].
  assert (Hc : context = "").
  { unfold writeRecord in Hw.
    destruct (entryAt _ (timeKey E)); try discriminate.
    rewrite Hctx in Hw.
    destruct (entryAt _ (levelKey E)); try discriminate.
    destruct (writeFields _ _ _ _); [|discriminate].
    now inversion Hw. }
  subst context. now inversion Hr.
Qed.

Lemma lines_empty (l : list string) : lines l = "" <-> l = [].
Proof.
  split; [|now intros ->].
  destruct l as [|s l]; [reflexivity|].
  simpl. intros H. destruct s; discriminate H.
Qed.

(** X12.  For error, fatal and every level other than debug, info and
    warn, the context is empty exactly when none of the frames from
    index 3 on prints a context; the first three frames never count. *)
Theorem error_context_empty_iff (level : Z) :
  level <> LevelDebug E -> level <> LevelInfo E -> level <> LevelWarn E ->
  fst (getLevelContext E level) = ""
  <-> Forall (fun call => errorFrame E call = "") (drop 3 (stackTrace E)).
Proof.
  intros H1 H2 H3. rewrite getLevelContext_default by assumption. cbn [fst].
  rewrite lines_empty. unfold resolvable.
  induction (drop 3 (stackTrace E)) as [|call tr IH]; simpl.
  - split; [constructor | reflexivity].
  - destruct (isEmpty (errorFrame E call)) eqn:He; simpl.
    + apply isEmpty_true in He. rewrite IH. split.
      * intros Hall. now constructor.
      * intros Hall. now apply Forall_cons in Hall as [_ Hall].
    + apply isEmpty_false in He. split; [discriminate|].
      intros Hall. apply Forall_cons in Hall as [Hc _]. contradiction.
Qed.

End ContextFacts.

Lemma debug_info_no_context_sample :
  getLevelContext Sample.sampleEnv 6 = ("", Sample.ESC ++ "[0;32m").
Proof.
  refine (proj1 (debug_info_no_context Sample.sampleEnv 6 "hello" [] _ _)).
  - discriminate.
  - now right.
Defined.

(** In the sample trace the frames from index 3 on are 13, 14, -1 and 16;
    only the frame -1 prints nothing, so the error context is not
    empty. *)
Lemma error_context_empty_iff_sample :
  fst (getLevelContext Sample.sampleEnv 3) <> "".
Proof.
  intros H.
  apply (error_context_empty_iff Sample.sampleEnv 3) in H;
    try (simpl; lia).
  apply Forall_cons in H as [H _]. vm_compute in H. discriminate H.
Defined.

(** ** What Format reports and how it can fail *)

Section FormatOutcomes.

Variable E : env.




Lemma render_failure_key (level : Z) (msg : string) (args : list goval)
    (f : failure) :
  render E level msg args = Failed f ->
  f = PanicNotAString (timeKey E) \/ f = PanicNotAString (levelKey E).
Proof.
  unfold render, writeRecord.
  destruct (entryAt _ (timeKey E));
    try (intros H; injection H as <-; now left).
  destruct (getLevelContext E level) as [context color].
  destruct (entryAt _ (levelKey E));
    try (intros H; injection H as <-; now right).
  match goal with
  | |- context [writeFields E ?en ?o ?s] =>
      destruct (writeFields_total E en o s) as [st' ->]
  end.
  discriminate.
Qed.

(** X14.  A call of [Format] that does not return ended in its
    validation loop, on a reserved key or on a key that does not
    round-trip, or on an entry whose timestamp or level is not a string.
    The panic of the third loop, [Should never get here], is never
    raised. *)
Theorem Format_failures (level : Z) (msg : string) (args : list goval)
    (ds : list diag) (f : failure) :
  Format E level msg args = (ds, Failed f) ->
  (isValidationFailure f
   \/ f = PanicNotAString (timeKey E) \/ f = PanicNotAString (levelKey E))
  /\ f <> PanicShouldNeverGetHere.
Proof.
  unfold Format.
  destruct (validate E (keysFrom 0 args)) as [ds' [f'|]] eqn:Hv;
    intros HF; inversion HF as [[Hds Hf]].
  - subst f'. pose proof (validate_failure_kind _ _ _ _ Hv) as Hk.
    split; [now left|]. intros ->. exact Hk.
  - apply render_failure_key in Hf.
    split; [now right|]. destruct Hf as [-> | ->]; discriminate.
Qed.

Lemma validate_passes_string (ks : list (nat * goval)) (ds : list diag)
    (i : nat) (key : string) :
  validate E ks = (ds, None) -> In (i, VString key) ks ->
  reserved E key = false /\ roundTrips E key = true.
Proof.
  revert ds. induction ks as [|[j k] ks IH]; intros ds Hv Hin.
  - destruct Hin.
  - simpl in Hv. destruct Hin as [Heq|Hin].
    + inversion Heq; subst j k. rewrite checkKey_string in Hv.
      destruct (reserved E key); [discriminate|].
      destruct (roundTrips E key); [now split | discriminate].
    + destruct (checkKey E j k) as [|d|f'].
      * now apply (IH ds).
      * destruct (validate E ks) as [ds' r]. inversion Hv; subst.
        now apply (IH ds').
      * discriminate.
Qed.

Lemma pairNames_In (args : list goval) (i : nat) (name : string) :
  In name (pairNames E i args) ->
  exists j k, In (j, k) (keysFrom i args) /\ name = fieldName E j k.
Proof.
  revert i. induction args as [|x|x y l IH] using list_pair_ind;
    intros i Hin; simpl in Hin.
  - destruct Hin.
  - destruct Hin.
  - destruct Hin as [<-|Hin].
    + exists i, x. split; [now left | reflexivity].
    + destruct (IH _ Hin) as (j & k & Hjk & Hn).
      exists j, k. split; [now right | exact Hn].
Qed.

(** The third loop when no name is reserved: every name is written. *)
Lemma writeFields_all (entry : gmap string goval) (order : list string)
    (st : state) :
  Forall (fun name => reserved E name = false) order ->
  writeFields E entry order st =
    inl (fold_left
           (fun st key => set E key (entryAt entry key) (Value (theme E)) st)
           order st).
Proof.
  revert st. induction order as [|key order IH]; intros st Hall; simpl.
  - reflexivity.
  - apply Forall_cons in Hall as [Hk Hall]. unfold reserved in Hk.
    rewrite Hk. now apply IH.
Qed.

(** X15.  When the validation loop passes and no placeholder name is
    reserved, the third loop drops nothing: every complete pair is
    written as a field, under its key or its placeholder, in call
    order, with the value the entry holds for that name. *)
Theorem Format_writes_every_pair (args : list goval) (ds : list diag)
    (entry : gmap string goval) (st : state) :
  validate E (keysFrom 0 args) = (ds, None) ->
  (forall i, reserved E (badKeyAtIndex E i) = false) ->
  writeFields E entry (orderOf E args) st =
    inl (fold_left
           (fun st key => set E key (entryAt entry key) (Value (theme E)) st)
           (pairNames E 0 args) st).
Proof.
  intros Hv Hbad. rewrite orderOf_pairNames. apply writeFields_all.
  apply List.Forall_forall. intros name Hin.
  destruct (pairNames_In _ _ _ Hin) as (j & k & Hjk & ->).
  destruct k as [|key|m|m s|x]; simpl; try apply Hbad.
  exact (proj1 (validate_passes_string _ _ _ _ Hv Hjk)).
Qed.

(** X16.  The loop of [Format] that validates the keys also visits a
    key left without a value at the end of the list, although that key
    is never rendered: if it is reserved the call ends in the fatal
    usage error, and if it is not a string it draws the diagnostic of
    its position. *)
Theorem Format_validates_unmatched_key (level : Z) (msg : string)
    (args : list goval) (ds0 : list diag) (k : goval) :
  Nat.Even (List.length args) ->
  validate E (keysFrom 0 args) = (ds0, None) ->
  (forall key, k = VString key -> reserved E key = true ->
     Format E level msg (args ++ [k]) = (ds0, Failed (FatalReservedKey key)))
  /\ (isReservedKey E k = None ->
      fst (Format E level msg (args ++ [k]))
      = (ds0 ++ [KeyNotString (List.length args) (Sprint k)])%list).
Proof.
  intros Hev Hv. unfold Format.
  rewrite keysFrom_app, validate_app, Hv by assumption.
  simpl keysFrom. simpl validate. split.
  - intros key -> Hres. rewrite checkKey_string, Hres.
    now rewrite app_nil_r.
  - intros Hns. unfold checkKey. rewrite Hns. reflexivity.
Qed.

(** X17.  A user field whose name has no entry is written with the
    value [<nil>], in the value colour. *)
Theorem missing_entry_written_as_nil (entry : gmap string goval)
    (key : string) (order : list string) (st : state) :
  reserved E key = false -> entry !! key = None ->
  writeFields E entry (key :: order) st =
    writeFields E entry order (offset E (Value (theme E)) key "<nil>" st).
Proof.
  intros Hres Hnone. simpl. unfold reserved in Hres. rewrite Hres.
  unfold entryAt. rewrite Hnone. reflexivity.
Qed.

End FormatOutcomes.

Lemma Format_writes_every_pair_sample :
  exists st,
    writeFields Sample.sampleEnv (Sample.logEntry 7 "ok" [VOther "1"; VString "x"; VString "a"; VString "b"])
      (orderOf Sample.sampleEnv [VOther "1"; VString "x"; VString "a"; VString "b"])
      {| col := 0; buf := [] |} = inl st
    /\ trackedOf (buf st) =
         [" "; "BAD_KEY_AT_INDEX_0"; ": "; "x"; " "; "a"; ": "; "b"].
Proof.
  eexists. split.
  - apply (Format_writes_every_pair Sample.sampleEnv
             [VOther "1"; VString "x"; VString "a"; VString "b"]
             [KeyNotString 0 "1"]).
    + reflexivity.
    + intros i. unfold reserved. simpl reservedKeys. simpl badKeyAtIndex.
      unfold Sample.badKey. reflexivity.
  - vm_compute. reflexivity.
Defined.

Lemma Format_validates_unmatched_key_sample :
  Format Sample.sampleEnv 6 "hello" [VString "a"; VString "apple"; VString "t"]
  = ([], Failed (FatalReservedKey "t")).
Proof.
  assert (Hev : Nat.Even (List.length [VString "a"; VString "apple"])).
  { exists 1%nat. reflexivity. }
  exact (proj1 (Format_validates_unmatched_key Sample.sampleEnv 6 "hello"
                  [VString "a"; VString "apple"] [] (VString "t") Hev eq_refl)
               "t" eq_refl eq_refl).
Defined.

Lemma missing_entry_written_as_nil_sample :
  writeFields Sample.sampleEnv ∅ ["size"] {| col := 0; buf := [] |}
  = inl (offset Sample.sampleEnv "" "size" "<nil>" {| col := 0; buf := [] |}).
Proof.
  rewrite (missing_entry_written_as_nil Sample.sampleEnv ∅ "size" []);
    reflexivity.
Defined.

Lemma Format_failures_sample :
  Format Sample.sampleEnv 6 "hello" [VString "t"; VNil]
  = ([], Failed (FatalReservedKey "t")).
Proof.
  destruct (Format Sample.sampleEnv 6 "hello" [VString "t"; VNil])
    as [ds [out|f]] eqn:HF.
  - vm_compute in HF. discriminate HF.
  - pose proof (Format_failures Sample.sampleEnv _ _ _ _ _ HF) as [_ Hne].
    vm_compute in HF. inversion HF. reflexivity.
Defined.


(** ** Records that fit on one line *)

Section Inline.

Variable E : env.

(** A field as [offset] sees it: its key and the text of its value. *)
Definition fieldWidth (f : string * string) : Z :=
  len (Separator E) + keyWidth (fst f)
  + len (strings.Trim (snd f) (LF ++ " ")).

Fixpoint inlineWidth (fs : list (string * string)) : Z :=
  match fs with
  | [] => 0
  | f :: fs' => fieldWidth f + inlineWidth fs'
  end.

(** The strings a field is written as when it does not wrap. *)
Definition fieldPieces (f : string * string) : list string :=
  (Separator E
   :: (if isEmpty (fst f) then [] else [fst f; assignmentChar])
   ++ [strings.Trim (snd f) (LF ++ " ")])%list.

Definition inlinePieces (fs : list (string * string)) : list string :=
  List.flat_map fieldPieces fs.

(** The fields of a record after the timestamp: level, logger name and
    message without a key, then the user fields. *)
Definition recordFields (level : Z) (msg : string) (args : list goval)
    (l : string) : list (string * string) :=
  let entry := LogEntry E level msg args in
  ("", l)
  :: ("", setText E (entryAt entry (nameKey E)))
  :: ("", setText E (entryAt entry (messageKey E)))
  :: map (fun key => (key, setText E (entryAt entry key)))
       (List.filter (fun key => negb (reserved E key)) (orderOf E args)).

Definition plainStep (v : Z * list string) (f : string * string)
    : Z * list string :=
  plainOffset E (fst f) (snd f) v.

Lemma writeFields_view (entry : gmap string goval) (order : list string)
    (st st' : state) :
  writeFields E entry order st = inl st' ->
  plainView st' =
    fold_left plainStep
      (map (fun key => (key, setText E (entryAt entry key)))
           (List.filter (fun key => negb (reserved E key)) order))
      (plainView st).
Proof.
  revert st. induction order as [|key order IH]; intros st Hw; simpl in Hw.
  - now inversion Hw.
  - simpl List.filter. unfold reserved at 1.
    destruct (existsb (String.eqb key) (reservedKeys E)); simpl.
    + now apply IH.
    + rewrite (IH _ Hw). unfold plainStep at 2. cbn [fst snd].
      now rewrite plainView_set.
Qed.

Lemma writeRecord_view (level : Z) (msg : string) (args : list goval)
    (t l : string) :
  entryAt (LogEntry E level msg args) (timeKey E) = VString t ->
  entryAt (LogEntry E level msg args) (levelKey E) = VString l ->
  exists st cc,
    writeRecord E level msg args = inl (st, cc)
    /\ plainView st =
         fold_left plainStep (recordFields level msg args l) (len t, [t]).
Proof.
  intros Ht Hl. unfold writeRecord. rewrite Ht, Hl.
  destruct (getLevelContext E level) as [context color].
  match goal with
  | |- context [writeFields E ?en ?o ?s] =>
      destruct (writeFields_total E en o s) as [st Hw]; rewrite Hw;
        apply writeFields_view in Hw
  end.
  exists st, (context, color). split; [reflexivity|].
  rewrite Hw. unfold recordFields. simpl fold_left. unfold seq.
  rewrite !plainView_set. reflexivity.
Qed.

Lemma len_nonneg (s : string) : 0 <= len s.
Proof. unfold len. lia. Qed.

Lemma fieldWidth_nonneg (f : string * string) : 0 <= fieldWidth f.
Proof.
  unfold fieldWidth, keyWidth.
  pose proof (len_nonneg (Separator E)).
  pose proof (len_nonneg (fst f)).
  pose proof (len_nonneg (strings.Trim (snd f) (LF ++ " "))).
  destruct (isEmpty (fst f)); unfold assignmentChar, len in *;
    simpl String.length in *; lia.
Qed.

Lemma inlineWidth_nonneg (fs : list (string * string)) : 0 <= inlineWidth fs.
Proof.
  induction fs as [|f fs IH]; simpl; [lia|].
  pose proof (fieldWidth_nonneg f). lia.
Qed.

Lemma inline_fold (fs : list (string * string)) (v : Z * list string) :
  isPretty E = false -> 1 <= len (Separator E) ->
  fst v + inlineWidth fs < maxCol E ->
  fold_left plainStep fs v
  = (fst v + inlineWidth fs, (snd v ++ inlinePieces fs)%list).
Proof.
  intros Hp Hsep. revert v. induction fs as [|f fs IH]; intros v Hfit.
  - simpl. rewrite Z.add_0_r, app_nil_r. now destruct v.
  - simpl fold_left. simpl inlineWidth in *.
    pose proof (inlineWidth_nonneg fs) as Hrest.
    pose proof (len_nonneg (fst f)) as Hkey.
    assert (Hstep : plainStep v f =
              (fst v + fieldWidth f, (snd v ++ fieldPieces f)%list)).
    { unfold plainStep, plainOffset, fieldWidth, fieldPieces, keyWidth in *.
      rewrite Hp. cbn [andb orb].
      set (val := strings.Trim (snd f) (LF ++ " ")) in *.
      assert (Hno : (fst v + len (fst f) + 1 + len val >=? maxCol E) = false).
      { rewrite Z.geb_leb. apply Z.leb_gt.
        destruct (isEmpty (fst f)) eqn:He.
        - apply isEmpty_true in He. rewrite He in *.
          change (len "") with 0 in *. lia.
        - unfold assignmentChar, len in *. simpl String.length in *. lia. }
      rewrite Hno. cbn [fst snd].
      destruct (isEmpty (fst f)); cbn [fst snd];
        rewrite <- ?app_assoc; simpl; f_equal; lia. }
    rewrite Hstep, IH.
    + cbn [fst snd]. unfold inlinePieces. simpl List.flat_map.
      rewrite <- app_assoc. f_equal. lia.
    + cbn [fst snd]. lia.
Qed.

(** X18.  Pretty mode off, a separator of at least one byte, and a
    record whose timestamp, separators, keys with their assignment
    characters and trimmed values add up to less than [maxCol]: no field
    wraps.  The strings written are the timestamp and then, for each
    field in order, the separator, the key and the assignment characters
    when there is a key, and the trimmed value; no indent is written and
    the cursor ends at the sum of their lengths. *)
Theorem short_record_stays_inline (level : Z) (msg : string)
    (args : list goval) (t l : string) :
  isPretty E = false -> 1 <= len (Separator E) ->
  entryAt (LogEntry E level msg args) (timeKey E) = VString t ->
  entryAt (LogEntry E level msg args) (levelKey E) = VString l ->
  len t + inlineWidth (recordFields level msg args l) < maxCol E ->
  exists st cc,
    writeRecord E level msg args = inl (st, cc)
    /\ col st = len t + inlineWidth (recordFields level msg args l)
    /\ trackedOf (buf st) = t :: inlinePieces (recordFields level msg args l).
Proof.
  intros Hp Hsep Ht Hl Hfit.
  destruct (writeRecord_view level msg args t l Ht Hl) as (st & cc & Hw & Hv).
  exists st, cc. split; [exact Hw|].
  rewrite inline_fold in Hv by assumption.
  unfold plainView in Hv. cbn [fst snd] in Hv.
  split.
  - exact (f_equal fst Hv).
  - exact (f_equal snd Hv).
Qed.

End Inline.

(** [Debug("ok", "a", "apple", "o", "orange")] in the sample environment:
    45 columns of 80, all on one line. *)
Lemma short_record_stays_inline_sample :
  exists st cc,
    writeRecord Sample.sampleEnv 7 "ok"
      [VString "a"; VString "apple"; VString "o"; VString "orange"]
    = inl (st, cc)
    /\ col st = 45
    /\ trackedOf (buf st) =
         ["12:00:00.000000"; " "; "DBG"; " "; "app"; " "; "ok";
          " "; "a"; ": "; "apple"; " "; "o"; ": "; "orange"].
Proof.
  destruct (short_record_stays_inline Sample.sampleEnv 7 "ok"
              [VString "a"; VString "apple"; VString "o"; VString "orange"]
              "12:00:00.000000" "DBG")
    as (st & cc & Hw & Hc & Ht); try reflexivity.
  exists st, cc. split; [exact Hw|]. split.
  - rewrite Hc. vm_compute. reflexivity.
  - rewrite Ht. vm_compute. reflexivity.
Defined.
